(** * Holiday particle experience: gesture classifier, mode machine,
      particle store, layout targets and image generation

    A shallow embedding of [src/types.ts], [src/App.tsx],
    [src/components/Experience.tsx] and the Gemini service
    ([generateChristmasImage]).

    JavaScript numbers are modelled as real numbers ([R]): every
    arithmetic operation of the source is the exact operation on [R],
    [Math.sqrt], [Math.sin], [Math.cos] and [Math.PI] are [sqrt], [sin],
    [cos] and [PI], and [Math.floor] is [Int_part].  Rounding, infinities
    and NaN are outside the model.

    [THREE.Vector3] is the three.js class (math/Vector3.js); the methods
    the component calls are transcribed in [Module Vector3].  A mesh is
    identified by the order in which it was added to the main group. *)

From Stdlib Require Import Reals Lra Lia List Ascii String Bool Arith ZArith.
From ExtLib Require Import Structures.Monad Structures.MonadState.
From ExtLib Require Import Data.Monads.StateMonad Data.Monads.OptionMonad.
Import ListNotations.
Import MonadNotation.

Local Open Scope monad_scope.
Local Open Scope R_scope.

(** ** Numbers *)

(** [a < b] and [a > b] on numbers, as booleans. *)
Definition ltb (a b : R) : bool := if Rlt_dec a b then true else false.
Definition gtb (a b : R) : bool := ltb b a.

(** [a || b] on numbers: [b] when [a] is falsy, that is [0]. *)
Definition orElse (a b : R) : R := if Req_dec_T a 0 then b else a.

(** [Math.floor] *)
Definition floor (a : R) : Z := Int_part a.

(** [l[i]] for a number [i] that is an integer: [None] is [undefined]. *)
Definition at_index {A : Type} (l : list A) (i : Z) : option A :=
  if (i <? 0)%Z then None else nth_error l (Z.to_nat i).

(** ** three.js: [Vector3] and [MathUtils] *)

Module Vector3.

Record t : Type := mk { x : R; y : R; z : R }.

(** [new THREE.Vector3()] *)
Definition zero : t := mk 0 0 0.

Definition length (v : t) : R :=
  sqrt (x v * x v + y v * y v + z v * z v).

Definition multiplyScalar (v : t) (s : R) : t :=
  mk (x v * s) (y v * s) (z v * s).

Definition divideScalar (v : t) (s : R) : t :=
  multiplyScalar v (1 / s).

(** The number [normalize] divides by: [this.length() || 1]. *)
Definition normalizeDivisor (v : t) : R := orElse (length v) 1.

Definition normalize (v : t) : t := divideScalar v (normalizeDivisor v).

Definition setLength (v : t) (l : R) : t :=
  multiplyScalar (normalize v) l.

Definition addScaledVector (a v : t) (s : R) : t :=
  mk (x a + x v * s) (y a + y v * s) (z a + z v * s).

Definition lerp (a v : t) (alpha : R) : t :=
  mk (x a + (x v - x a) * alpha)
     (y a + (y v - y a) * alpha)
     (z a + (z v - z a) * alpha).

Definition distanceToSquared (a v : t) : R :=
  let dx := x a - x v in
  let dy := y a - y v in
  let dz := z a - z v in
  dx * dx + dy * dy + dz * dz.

Definition distanceTo (a v : t) : R := sqrt (distanceToSquared a v).

End Vector3.

Abbreviation Vector3 := Vector3.t.

Module MathUtils.
Definition lerp (x y t : R) : R := (1 - t) * x + t * y.
End MathUtils.

(** ** [types.ts] *)

Inductive AppMode : Type := TREE | SCATTER | FOCUS.

Definition AppMode_eqb (a b : AppMode) : bool :=
  match a, b with
  | TREE, TREE | SCATTER, SCATTER | FOCUS, FOCUS => true
  | _, _ => false
  end.

Inductive ParticleType : Type := DECORATION | DUST | PHOTO.

Definition ParticleType_eqb (a b : ParticleType) : bool :=
  match a, b with
  | DECORATION, DECORATION | DUST, DUST | PHOTO, PHOTO => true
  | _, _ => false
  end.

(** What a mesh is drawn with; a texture is named by its source. *)
Inductive Material : Type :=
| matGold | matGreen | matRed | matCandy
| matPhoto (map : string).

Inductive Geometry : Type := frameGeo | dustGeo | boxGeo | sphereGeo | tubeGeo.

(** A [THREE.Mesh]: its identity, and the position and scale the
    animation loop blends.  Orientation is not modelled. *)
Record Mesh : Type := mkMesh {
  mesh_id : nat;
  geometry : Geometry;
  material : Material;
  position : Vector3;
  scale : Vector3
}.

Record ParticleData : Type := mkParticle {
  mesh : Mesh;
  velocity : Vector3;
  type : ParticleType;
  initialPos : Vector3
}.

(** A point of [result.landmarks[0]]. *)
Record Landmark : Type := mkLandmark { lx : R; ly : R; lz : R }.

(** ** The Gemini service: [generateChristmasImage] *)

Module geminiService.

Local Open Scope string_scope.

Inductive ImageSize : Type := size1K | size2K | size4K.

(** [part.inlineData]; a field the response leaves out is [None]. *)
Record Blob : Type := mkBlob { mimeType : option string; data : option string }.

Record Part : Type := mkPart { text : option string; inlineData : option Blob }.

Record Content : Type := mkContent { parts : option (list Part) }.

Record Candidate : Type := mkCandidate { content : option Content }.

Record Response : Type := mkResponse { candidates : option (list Candidate) }.

(** The request [generateContent] is called with. *)
Record Request : Type := mkRequest {
  model : string;
  contents : list Part;
  aspectRatio : string;
  imageSize : ImageSize
}.

(** A thrown [Error], by its message. *)
Record Error : Type := mkError { message : string }.

(** What the promise settles to, and what went to [console.error]. *)
Inductive Settled : Type :=
| fulfilled (url : string)
| rejected (e : Error).

(** [response.candidates?.[0]?.content?.parts || []] *)
Definition responseParts (response : Response) : list Part :=
  match candidates response with
  | Some (c :: _) =>
      match content c with
      | Some ct =>
          match parts ct with
          | Some ps => ps
          | None => []
          end
      | None => []
      end
  | _ => []
  end.

(** A value inside a template literal. *)
Definition interpolate (s : option string) : string :=
  match s with
  | Some s => s
  | None => "undefined"
  end.

(** The [for (const part of ...)] loop with its [return]: [None] when
    the loop runs to its end. *)
Fixpoint firstImage (ps : list Part) : option string :=
  match ps with
  | [] => None
  | part :: rest =>
      match inlineData part with
      | Some blob => Some ("data:image/png;base64," ++ interpolate (data blob))
      | None => firstImage rest
      end
  end.

(** The argument of [ai.models.generateContent]. *)
Definition imageRequest (prompt : string) (size : ImageSize) : Request :=
  mkRequest "gemini-3-pro-image-preview" [mkPart (Some prompt) None] "1:1" size.

(** [ai] is the client: its [generateContent] either throws or answers.
    The [try] block, then the [catch] that logs and throws again. *)
Definition generateChristmasImage
    (ai : Request -> Error + Response) (prompt : string) (size : ImageSize)
  : Settled * list Error :=
  let attempt :=
    match ai (imageRequest prompt size) with
    | inl e => inl e
    | inr response =>
        match firstImage (responseParts response) with
        | Some url => inr url
        | None => inl (mkError "No image generated.")
        end
    end in
  match attempt with
  | inr url => (fulfilled url, [])
  | inl error => (rejected error, [error])
  end.

(** [s.split(sep)] for a separator of one character: the pieces between
    the separators, in order; a string without the separator is its own
    only piece. *)
Fixpoint split (sep : Ascii.ascii) (s : string) : list string :=
  match s with
  | EmptyString => [EmptyString]
  | String c rest =>
      if Ascii.eqb c sep then EmptyString :: split sep rest
      else
        match split sep rest with
        | piece :: pieces => String c piece :: pieces
        | [] => [String c EmptyString]
        end
  end.

(** [base64Image.split(',')[1] || base64Image]: the second piece, or
    the whole string when there is none or it is empty. *)
Definition cleanBase64 (base64Image : string) : string :=
  match nth_error (split ","%char base64Image) 1 with
  | Some EmptyString | None => base64Image
  | Some piece => piece
  end.

(** The argument of [ai.models.generateContent] in the edit: a model
    and the parts, no [config]. *)
Record EditRequest : Type := mkEditRequest {
  editModel : string;
  editContents : list Part
}.

Definition editRequest (base64Image prompt : string) : EditRequest :=
  mkEditRequest "gemini-2.5-flash-image"
    [mkPart None (Some (mkBlob (Some "image/png")
                               (Some (cleanBase64 base64Image))));
     mkPart (Some prompt) None].

Definition editImageWithGemini
    (ai : EditRequest -> Error + Response) (base64Image prompt : string)
  : Settled * list Error :=
  let attempt :=
    match ai (editRequest base64Image prompt) with
    | inl e => inl e
    | inr response =>
        match firstImage (responseParts response) with
        | Some url => inr url
        | None => inl (mkError "No edited image returned.")
        end
    end in
  match attempt with
  | inr url => (fulfilled url, [])
  | inl error => (rejected error, [error])
  end.

End geminiService.

(** ** [App.tsx]: the mode state *)

(** [useState<AppMode>(AppMode.TREE)] *)
Definition initialMode : AppMode := TREE.

(** The state after the [setMode] calls of one frame, in call order:
    the last call decides. *)
Definition setModes (mode : AppMode) (calls : list AppMode) : AppMode :=
  fold_left (fun _ next => next) calls mode.

(** ** [Experience.tsx] *)

(** What the refs of the component hold: the particle store
    ([particlesRef]), the meshes added to the main group, and how many
    numbers [Math.random] has handed out. *)
Record Scene : Type := mkScene {
  particles : list ParticleData;
  children : list nat;
  draws : nat
}.

Definition emptyScene : Scene := mkScene [] [] 0.

Section Experience.

(** The numbers [Math.random] returns, in call order. *)
Variable random : nat -> R.

Definition Math_random : state Scene R :=
  s <- get ;;
  put (mkScene (particles s) (children s) (S (draws s))) ;;
  ret (random (draws s)).

(** [new THREE.Mesh(geometry, material)] followed by
    [mainGroup.add(mesh)]: a fresh mesh at the origin with unit scale. *)
Definition addMesh (g : Geometry) (m : Material) : state Scene Mesh :=
  s <- get ;;
  let id := List.length (children s) in
  put (mkScene (particles s) (children s ++ [id]) (draws s)) ;;
  ret (mkMesh id g m Vector3.zero (Vector3.mk 1 1 1)).

(** [particlesRef.current.push(p)] *)
Definition push (p : ParticleData) : state Scene unit :=
  s <- get ;;
  put (mkScene (particles s ++ [p]) (children s) (draws s)).

(** [new THREE.Vector3(Math.random()-0.5, Math.random()-0.5,
    Math.random()-0.5).multiplyScalar(0.05)] *)
Definition randomVelocity : state Scene Vector3 :=
  vx <- Math_random ;;
  vy <- Math_random ;;
  vz <- Math_random ;;
  ret (Vector3.multiplyScalar (Vector3.mk (vx - 0.5) (vy - 0.5) (vz - 0.5)) 0.05).

Definition addParticle (ty : ParticleType) (texture : option string)
  : state Scene unit :=
  m <- match ty, texture with
       | PHOTO, Some tex => addMesh frameGeo (matPhoto tex)
       | DUST, _ => addMesh dustGeo matGold
       | _, _ =>
           rand <- Math_random ;;
           if ltb rand 0.3 then
             coin <- Math_random ;;
             addMesh boxGeo (if gtb coin 0.5 then matGold else matGreen)
           else if ltb rand 0.6 then addMesh sphereGeo matRed
           else addMesh tubeGeo matCandy
       end ;;
  px <- Math_random ;;
  py <- Math_random ;;
  pz <- Math_random ;;
  let pos := Vector3.mk ((px - 0.5) * 50) ((py - 0.5) * 50) ((pz - 0.5) * 50) in
  let m := mkMesh (mesh_id m) (geometry m) (material m) pos (scale m) in
  v <- randomVelocity ;;
  push (mkParticle m v ty (position m)).

(** [for (let i = 0; i < n; i++) body] *)
Fixpoint times (n : nat) (body : state Scene unit) : state Scene unit :=
  match n with
  | O => ret tt
  | S n' => body ;; times n' body
  end.

(** The canvas texture of the placeholder photo. *)
Definition initialPhotoTex : string := "JOYEUX NOEL"%string.

(** The particles the first effect creates. *)
Definition createParticles : state Scene unit :=
  times 1500 (addParticle DECORATION None) ;;
  times 2500 (addParticle DUST None) ;;
  addParticle PHOTO (Some initialPhotoTex).

(** The scene once the first effect has run. *)
Definition initScene : Scene := execState createParticles emptyScene.

(** The callback of [TextureLoader.load] in the second effect: the
    frame is added where a new mesh is, and the position is not set. *)
Definition onTextureLoaded (t : string) : state Scene unit :=
  m <- addMesh frameGeo (matPhoto t) ;;
  v <- randomVelocity ;;
  push (mkParticle m v PHOTO (position m)).

(** Whether [TextureLoader.load] can load a URL.  It calls the callback
    it is given when it can; when it cannot, the callback is never
    called, and the effect passes no other one. *)
Variable loads : string -> bool.

(** The second effect: it runs when [newPhoto] is a non-empty string,
    and the particle is pushed only by the callback of the load. *)
Definition handleNewPhoto (newPhoto : option string) : state Scene unit :=
  match newPhoto with
  | None | Some EmptyString => ret tt
  | Some url => if loads url then onTextureLoaded url else ret tt
  end.

(** *** The animation loop *)

(** [new THREE.Vector3(lm[i].x, lm[i].y, lm[i].z)]; reading a field of
    [undefined] throws, which is [None]. *)
Definition vec (lm : list Landmark) (i : nat) : option Vector3 :=
  l <- nth_error lm i ;;
  ret (Vector3.mk (lx l) (ly l) (lz l)).

(** [thumb.distanceTo(index)] *)
Definition pinchDistance (lm : list Landmark) : option R :=
  thumb <- vec lm 4 ;;
  index <- vec lm 8 ;;
  ret (Vector3.distanceTo thumb index).

(** [tips.reduce((acc, t) => acc + t.distanceTo(wrist), 0) / tips.length] *)
Definition avgDist (lm : list Landmark) : option R :=
  wrist <- vec lm 0 ;;
  t12 <- vec lm 12 ;;
  t16 <- vec lm 16 ;;
  t20 <- vec lm 20 ;;
  let tips := [t12; t16; t20] in
  ret (fold_left (fun acc t => acc + Vector3.distanceTo t wrist) tips 0
       / INR (List.length tips)).

(** [if (currentMode !== m) setMode(m)]: the calls to [setMode] made. *)
Definition switchTo (currentMode m : AppMode) : list AppMode :=
  if AppMode_eqb currentMode m then [] else [m].

(** The pinch test, then the fist and open-hand test, on the two
    measured distances: the calls to [setMode], in order. *)
Definition classify (currentMode : AppMode) (pinch avg : R) : list AppMode :=
  (if ltb pinch 0.05 then switchTo currentMode FOCUS else [])
  ++ (if ltb avg 0.25 then switchTo currentMode TREE
      else if gtb avg 0.4 then switchTo currentMode SCATTER
      else []).

Definition gestures (currentMode : AppMode) (lm : list Landmark)
  : option (list AppMode) :=
  pinch <- pinchDistance lm ;;
  avg <- avgDist lm ;;
  ret (classify currentMode pinch avg).

Definition isPhoto (p : ParticleData) : bool := ParticleType_eqb (type p) PHOTO.

(** The two statements on [focusTarget] that open the particle logic.
    [None] is the [TypeError] of reading [.mesh] of [undefined]. *)
Definition selectFocus (currentMode : AppMode) (focusTarget : option nat)
    (s : Scene) : option (option nat * Scene) :=
  '(focusTarget, s) <-
    match currentMode, focusTarget with
    | FOCUS, None =>
        let photos := filter isPhoto (particles s) in
        if (0 <? List.length photos)%nat then
          let (r, s') := runState Math_random s in
          p <- at_index photos (floor (r * INR (List.length photos))) ;;
          ret (Some (mesh_id (mesh p)), s')
        else ret (None, s)
    | _, _ => ret (focusTarget, s)
    end ;;
  ret (if AppMode_eqb currentMode FOCUS then focusTarget else None, s).

(** [p.mesh === focusTarget] *)
Definition isFocus (p : ParticleData) (focusTarget : option nat) : bool :=
  match focusTarget with
  | Some id => Nat.eqb (mesh_id (mesh p)) id
  | None => false
  end.

(** TREE: the radius of the cone at index [i]. *)
Definition treeRadius (i particleCount : nat) : R :=
  let t := INR i / INR particleCount in
  let maxRadius := 15 in
  maxRadius * (1 - t).

Definition treeTarget (i particleCount : nat) : Vector3 :=
  let t := INR i / INR particleCount in
  let angle := t * 50 * PI in
  let height := (t - 0.5) * 40 in
  let radius := treeRadius i particleCount in
  Vector3.mk (cos angle * radius) height (sin angle * radius).

(** SCATTER: the target before the clamp. *)
Definition scatterDrift (p : ParticleData) (time : R) : Vector3 :=
  Vector3.addScaledVector (initialPos p) (velocity p) (sin (time * 0.001) * 20).

(** The two clamping statements. *)
Definition clampShell (targetPos : Vector3) : Vector3 :=
  let targetPos :=
    if ltb (Vector3.length targetPos) 8 then Vector3.setLength targetPos 8
    else targetPos in
  if gtb (Vector3.length targetPos) 20 then Vector3.setLength targetPos 20
  else targetPos.

Definition scatterTarget (p : ParticleData) (time : R) : Vector3 :=
  clampShell (scatterDrift p time).

Definition ones : Vector3 := Vector3.mk 1 1 1.

(** The body of the loop over the particles, on particle [i]. *)
Definition updateParticle (currentMode : AppMode) (focusTarget : option nat)
    (time : R) (particleCount i : nat) (p : ParticleData) : ParticleData :=
  let m := mesh p in
  let '(targetPos, scale1) :=
    match currentMode with
    | TREE => (treeTarget i particleCount, scale m)
    | SCATTER => (scatterTarget p time, scale m)
    | FOCUS =>
        if isFocus p focusTarget then
          (Vector3.mk 0 0 35,
           Vector3.lerp (scale m) (Vector3.mk 4.5 4.5 4.5) 0.05)
        else
          (Vector3.multiplyScalar (initialPos p) 1.5,
           Vector3.lerp (scale m) ones 0.05)
    end in
  let position1 :=
    if negb (AppMode_eqb currentMode SCATTER)
    then Vector3.lerp (position m) targetPos 0.05
    else Vector3.lerp (position m) targetPos 0.02 in
  let scale2 :=
    if negb (AppMode_eqb currentMode FOCUS) || negb (isFocus p focusTarget)
    then Vector3.lerp scale1 ones 0.1
    else scale1 in
  mkParticle (mkMesh (mesh_id m) (geometry m) (material m) position1 scale2)
             (velocity p) (type p) (initialPos p).

(** [for (let i = 0; i < particleCount; i++)], from index [i] on. *)
Fixpoint updateFrom (currentMode : AppMode) (focusTarget : option nat)
    (time : R) (particleCount i : nat) (ps : list ParticleData)
  : list ParticleData :=
  match ps with
  | [] => []
  | p :: rest =>
      updateParticle currentMode focusTarget time particleCount i p
      :: updateFrom currentMode focusTarget time particleCount (S i) rest
  end.

(** What the loop keeps between frames, with the mode of [App] (which
    [modeRef] mirrors) and the rotation of the main group. *)
Record World : Type := mkWorld {
  scene : Scene;
  mode : AppMode;
  focusTarget : option nat;
  lastTime : R;
  rotationX : R;
  rotationY : R
}.

(** One call of [animate].  [hand] is [result.landmarks[0]] when the
    landmarker and the video are ready and a hand was found.  [None] is
    an exception, which ends the loop. *)
Definition animate (time : R) (hand : option (list Landmark)) (w : World)
  : option World :=
  let currentMode := mode w in
  '(rx, ry, calls) <-
    match hand with
    | Some lm =>
        palm <- nth_error lm 9 ;;
        let targetRotY := (lx palm - 0.5) * 2 in
        let targetRotX := (ly palm - 0.5) * 2 in
        calls <- gestures currentMode lm ;;
        ret (MathUtils.lerp (rotationX w) targetRotX 0.1,
             MathUtils.lerp (rotationY w) targetRotY 0.1,
             calls)
    | None => ret (rotationX w, rotationY w, [])
    end ;;
  '(target, s) <- selectFocus currentMode (focusTarget w) (scene w) ;;
  let particleCount := List.length (particles s) in
  let ps := updateFrom currentMode target time particleCount 0 (particles s) in
  ret (mkWorld (mkScene ps (children s) (draws s))
               (setModes (mode w) calls) target time rx ry).

End Experience.

(** *** The loop over the frames *)

(** [animate] asks for the next frame as its last statement: the
    frames of [frames], each a time and what the landmarker found, are
    run in order, and an exception in one ends the loop. *)
Fixpoint run (random : nat -> R) (frames : list (R * option (list Landmark)))
    (w : World) : option World :=
  match frames with
  | [] => Some w
  | (time, hand) :: rest =>
      w' <- animate random time hand w ;;
      run random rest w'
  end.

(** ** [App.tsx]: the photo queue *)

(** The two states of [App]. *)
Record AppState : Type := mkApp {
  app_mode : AppMode;
  newPhoto : option string
}.

Definition initialApp : AppState := mkApp initialMode None.

(** A [File], by what the [onload] callback of
    [FileReader.readAsDataURL] finds in [ev.target?.result], [None] when
    there is no result. *)
Record File : Type := mkFile { file_name : string; file_result : option string }.


Definition handlePhotoGenerated (url : string) (app : AppState) : AppState :=
  mkApp (app_mode app) (Some url).

Definition clearNewPhoto (app : AppState) : AppState :=
  mkApp (app_mode app) None.

(** The second effect of [Experience] with its [onPhotoAdded]: the
    callback of the load pushes the photo and then clears the queue; for
    a URL that does not load nothing is pushed and the queue stays. *)
Definition newPhotoEffect (random : nat -> R) (loads : string -> bool)
    (app : AppState) (s : Scene) : AppState * Scene :=
  match newPhoto app with
  | None | Some EmptyString => (app, s)
  | Some url =>
      (if loads url then clearNewPhoto app else app,
       execState (handleNewPhoto random loads (Some url)) s)
  end.

(** ** The control panel: [UI] *)

Module UI.

(** The [useState] cells of the component. *)
Record State : Type := mkState {
  isHidden : bool;
  showGenTools : bool;
  genPrompt : string;
  genSize : geminiService.ImageSize;
  isGenerating : bool;
  genError : option string;
  isEditing : bool;
  editPrompt : string;
  selectedFileForEdit : option File;
  previewUrl : option string
}.

Definition initialState : State :=
  mkState false false EmptyString geminiService.size1K false None
          false EmptyString None None.

(** [c.toLowerCase()] on the letters A to Z; other characters stay. *)
Definition lowerAscii (c : Ascii.ascii) : Ascii.ascii :=
  let n := Ascii.N_of_ascii c in
  if ((65 <=? n) && (n <=? 90))%N then Ascii.ascii_of_N (n + 32) else c.

Fixpoint toLowerCase (s : string) : string :=
  match s with
  | EmptyString => EmptyString
  | String c rest => String (lowerAscii c) (toLowerCase rest)
  end.

(** The [keydown] listener. *)
Definition handleKey (key : string) (ui : State) : State :=
  if String.eqb (toLowerCase key) "h" then
    mkState (negb (isHidden ui)) (showGenTools ui) (genPrompt ui) (genSize ui)
            (isGenerating ui) (genError ui) (isEditing ui) (editPrompt ui)
            (selectedFileForEdit ui) (previewUrl ui)
  else ui.


(** The button that opens and closes the tools. *)
Definition toggleGenTools (ui : State) : State :=
  mkState (isHidden ui) (negb (showGenTools ui)) (genPrompt ui) (genSize ui)
          (isGenerating ui) (genError ui) (isEditing ui) (editPrompt ui)
          (selectedFileForEdit ui) (previewUrl ui).

(** [handleGenerate] up to its [await]: [None] when it returns at once. *)
Definition startGenerate (ui : State) : option State :=
  match genPrompt ui with
  | EmptyString => None
  | _ =>
      Some (mkState (isHidden ui) (showGenTools ui) (genPrompt ui) (genSize ui)
                    true None (isEditing ui) (editPrompt ui)
                    (selectedFileForEdit ui) (previewUrl ui))
  end.

(** [handleGenerate] once the promise has settled, with no other
    event in between: the state of the panel, the state of [App] and
    what was logged. *)
Definition handleGenerate
    (ai : geminiService.Request -> geminiService.Error + geminiService.Response)
    (ui : State) (app : AppState) : State * AppState * list geminiService.Error :=
  match startGenerate ui with
  | None => (ui, app, [])
  | Some ui1 =>
      let '(settled, log) :=
        geminiService.generateChristmasImage ai (genPrompt ui) (genSize ui) in
      let '(ui2, app2) :=
        match settled with
        | geminiService.fulfilled url =>
            (mkState (isHidden ui1) false EmptyString (genSize ui1)
                     (isGenerating ui1) (genError ui1) (isEditing ui1)
                     (editPrompt ui1) (selectedFileForEdit ui1) (previewUrl ui1),
             handlePhotoGenerated url app)
        | geminiService.rejected _ =>
            (mkState (isHidden ui1) (showGenTools ui1) (genPrompt ui1)
                     (genSize ui1) (isGenerating ui1)
                     (Some "Failed to generate image."%string) (isEditing ui1)
                     (editPrompt ui1) (selectedFileForEdit ui1) (previewUrl ui1),
             app)
        end in
      (mkState (isHidden ui2) (showGenTools ui2) (genPrompt ui2) (genSize ui2)
               false (genError ui2) (isEditing ui2) (editPrompt ui2)
               (selectedFileForEdit ui2) (previewUrl ui2),
       app2, log)
  end.

(** [handleEdit] up to its [await]: it needs a prompt and a preview. *)
Definition startEdit (ui : State) : option (string * State) :=
  match editPrompt ui, previewUrl ui with
  | EmptyString, _ | _, None | _, Some EmptyString => None
  | _, Some preview =>
      Some (preview,
            mkState (isHidden ui) (showGenTools ui) (genPrompt ui) (genSize ui)
                    (isGenerating ui) None true (editPrompt ui)
                    (selectedFileForEdit ui) (previewUrl ui))
  end.

Definition handleEdit
    (ai : geminiService.EditRequest -> geminiService.Error + geminiService.Response)
    (ui : State) (app : AppState) : State * AppState * list geminiService.Error :=
  match startEdit ui with
  | None => (ui, app, [])
  | Some (preview, ui1) =>
      let '(settled, log) :=
        geminiService.editImageWithGemini ai preview (editPrompt ui) in
      let '(ui2, app2) :=
        match settled with
        | geminiService.fulfilled url =>
            (mkState (isHidden ui1) false (genPrompt ui1) (genSize ui1)
                     (isGenerating ui1) (genError ui1) (isEditing ui1)
                     EmptyString None None,
             handlePhotoGenerated url app)
        | geminiService.rejected _ =>
            (mkState (isHidden ui1) (showGenTools ui1) (genPrompt ui1)
                     (genSize ui1) (isGenerating ui1)
                     (Some "Failed to edit image."%string) (isEditing ui1)
                     (editPrompt ui1) (selectedFileForEdit ui1) (previewUrl ui1),
             app)
        end in
      (mkState (isHidden ui2) (showGenTools ui2) (genPrompt ui2) (genSize ui2)
               (isGenerating ui2) (genError ui2) false (editPrompt ui2)
               (selectedFileForEdit ui2) (previewUrl ui2),
       app2, log)
  end.

End UI.

(** ** Sample inputs *)

(** The 21 landmarks of a hand, from the seven the loop reads: wrist 0,
    thumb tip 4, index tip 8, palm 9 and the tips 12, 16 and 20; the
    other points are put at the wrist. *)
Definition hand (wrist thumb index palm middle ring pinky : Landmark)
  : list Landmark :=
  [wrist; wrist; wrist; wrist; thumb; wrist; wrist; wrist; index; palm;
   wrist; wrist; middle; wrist; wrist; wrist; ring; wrist; wrist; wrist;
   pinky].

(** A hand held upright in the image plane: thumb and index tips at
    heights [thumb] and [index], the three other tips at height [tips],
    the wrist and the palm at height 0.5. *)
Definition uprightHand (thumb index tips : R) : list Landmark :=
  let at_y (v : R) := mkLandmark 0.5 v 0 in
  hand (at_y 0.5) (at_y thumb) (at_y index) (at_y 0.5)
       (at_y tips) (at_y tips) (at_y tips).

(** Thumb and index 0.03 apart, the other tips 0.1 from the wrist. *)
Definition pinchedFist : list Landmark := uprightHand 0.43 0.4 0.6.

(** Thumb and index 0.3 apart; the other tips 0.2, 0.3 and 0.45 from
    the wrist. *)
Definition fistHand : list Landmark := uprightHand 0.6 0.3 0.7.
Definition relaxedHand : list Landmark := uprightHand 0.6 0.3 0.8.
Definition openHand : list Landmark := uprightHand 0.6 0.3 0.95.

(** A source of random numbers that always answers 0.75. *)
Definition steadyRandom : nat -> R := fun _ => 0.75.

(** The particle the second effect adds to an empty scene for the
    photo ["photo"] when [Math.random] answers 0.75. *)
Definition photoAtOrigin : ParticleData :=
  mkParticle
    (mkMesh 0 frameGeo (matPhoto "photo") Vector3.zero (Vector3.mk 1 1 1))
    (Vector3.multiplyScalar
       (Vector3.mk (0.75 - 0.5) (0.75 - 0.5) (0.75 - 0.5)) 0.05)
    PHOTO Vector3.zero.

(** The world after that photo was loaded, switched to FOCUS by hand,
    with no focus target yet. *)
Definition photoWorld : World :=
  mkWorld (mkScene [photoAtOrigin] [0%nat] 3) FOCUS None 0 0 0.

(** A loader that can load the sample image and nothing else. *)
Definition sampleLoads (url : string) : bool :=
  String.eqb url "data:image/png;base64,iVBOR".

(** The same scene in TREE, the mode [App] starts in. *)
Definition treeWorld : World :=
  mkWorld (mkScene [photoAtOrigin] [0%nat] 3) initialMode None 0 0 0.

(** The same scene in SCATTER. *)
Definition scatterWorld : World :=
  mkWorld (mkScene [photoAtOrigin] [0%nat] 3) SCATTER None 0 0 0.

(** ** Response vocabulary *)

(** The part carries inline image data. *)
Definition hasImage (part : geminiService.Part) : Prop :=
  geminiService.inlineData part <> None.

(** The parts of one candidate, none when its content or the parts of
    the content are missing. *)
Definition candidateParts (c : geminiService.Candidate)
  : list geminiService.Part :=
  match geminiService.content c with
  | Some ct =>
      match geminiService.parts ct with
      | Some ps => ps
      | None => []
      end
  | None => []
  end.

(** Every part the response returns, over all its candidates. *)
Definition allParts (response : geminiService.Response)
  : list geminiService.Part :=
  match geminiService.candidates response with
  | Some cs => flat_map candidateParts cs
  | None => []
  end.

(** The part carries image data: an [inlineData] with its [data]. *)
Definition carriesImageData (part : geminiService.Part) : Prop :=
  exists blob d,
    geminiService.inlineData part = Some blob
    /\ geminiService.data blob = Some d.

(** An answer whose first candidate holds a text part only and whose
    second candidate holds the image. *)
Definition laterCandidateResponse : geminiService.Response :=
  geminiService.mkResponse
    (Some [geminiService.mkCandidate
             (Some (geminiService.mkContent
                      (Some [geminiService.mkPart (Some "A tree"%string) None])));
           geminiService.mkCandidate
             (Some (geminiService.mkContent
                      (Some [geminiService.mkPart None
                               (Some (geminiService.mkBlob
                                        (Some "image/png"%string)
                                        (Some "iVBOR"%string)))])))]).

Definition laterCandidateAi
  : geminiService.Request -> geminiService.Error + geminiService.Response :=
  fun _ => inr laterCandidateResponse.

(** A malformed answer: its only part has an [inlineData] without
    [data]. *)
Definition datalessResponse : geminiService.Response :=
  geminiService.mkResponse
    (Some [geminiService.mkCandidate
             (Some (geminiService.mkContent
                      (Some [geminiService.mkPart None
                               (Some (geminiService.mkBlob
                                        (Some "text/plain"%string) None))])))]).

Definition datalessAi
  : geminiService.Request -> geminiService.Error + geminiService.Response :=
  fun _ => inr datalessResponse.

(** A service that answers with no candidates, and one whose first
    candidate holds a text part and then an image part. *)
Definition absentAi
  : geminiService.Request -> geminiService.Error + geminiService.Response :=
  fun _ => inr (geminiService.mkResponse None).

Definition imageResponse : geminiService.Response :=
  geminiService.mkResponse
    (Some [geminiService.mkCandidate
             (Some (geminiService.mkContent
                      (Some [geminiService.mkPart (Some "A tree"%string) None;
                             geminiService.mkPart None
                               (Some (geminiService.mkBlob
                                        (Some "image/png"%string) (Some "iVBOR"%string)))])))]).

Definition imageAi
  : geminiService.Request -> geminiService.Error + geminiService.Response :=
  fun _ => inr imageResponse.

(** The edit service with the same answer, and one whose call throws. *)
Definition imageEditAi
  : geminiService.EditRequest -> geminiService.Error + geminiService.Response :=
  fun _ => inr imageResponse.

Definition failingEditAi
  : geminiService.EditRequest -> geminiService.Error + geminiService.Response :=
  fun _ => inl (geminiService.mkError "fetch failed").

(** The panel with the tools open and a prompt typed in, and the panel
    with a file chosen for the edit. *)
Definition promptedPanel : UI.State :=
  UI.mkState false true "a snowy tree" geminiService.size2K false
             (Some "Failed to generate image."%string) false EmptyString None None.

Definition editPanel : UI.State :=
  UI.mkState false true EmptyString geminiService.size1K false None false
             "add snow"
             (Some (mkFile "tree.png" (Some "data:image/png;base64,iVBOR"%string)))
             (Some "data:image/png;base64,iVBOR"%string).

(** A service whose call throws. *)
Definition failingAi
  : geminiService.Request -> geminiService.Error + geminiService.Response :=
  fun _ => inl (geminiService.mkError "fetch failed").

(** ** Store vocabulary *)

(** [after] is [before] with one PHOTO particle pushed: one longer,
    the same at every index of [before], and the particle at the new
    index is found by filtering [after] for PHOTO. *)
Definition pushedPhoto (before after : list ParticleData) : Prop :=
  List.length after = S (List.length before)
  /\ (forall i, (i < List.length before)%nat ->
                nth_error after i = nth_error before i)
  /\ exists p,
       nth_error after (List.length before) = Some p
       /\ type p = PHOTO
       /\ In p (filter isPhoto after).

(** ** Scene vocabulary *)

(** The mesh of each particle, by identity, in store order. *)
Definition meshIds (ps : list ParticleData) : list nat :=
  map (fun p => mesh_id (mesh p)) ps.

(** Every mesh of the main group belongs to one particle, in the same
    order, and the meshes are numbered from 0. *)
Definition sceneOk (s : Scene) : Prop :=
  meshIds (particles s) = children s
  /\ children s = seq 0 (List.length (children s)).

(** What a frame leaves alone in a particle. *)
Definition fixedPart (p : ParticleData)
  : nat * Geometry * Material * Vector3 * ParticleType * Vector3 :=
  (mesh_id (mesh p), geometry (mesh p), material (mesh p),
   velocity p, type p, initialPos p).

(** Every coordinate is at most [r] in absolute value. *)
Definition withinBox (r : R) (v : Vector3) : Prop :=
  Rabs (Vector3.x v) <= r /\ Rabs (Vector3.y v) <= r /\ Rabs (Vector3.z v) <= r.

(** The palm of every hand among the frames is inside the image. *)
Definition palmsInImage (frames : list (R * option (list Landmark))) : Prop :=
  Forall (fun frame =>
            forall lm palm,
              snd frame = Some lm -> nth_error lm 9 = Some palm ->
              0 <= lx palm <= 1 /\ 0 <= ly palm <= 1) frames.

(** A frame without a hand at each of the given times. *)
Definition noHand (times : list R) : list (R * option (list Landmark)) :=
  map (fun time => (time, None)) times.

(** The same hand at each of the given times. *)
Definition heldHand (lm : list Landmark) (times : list R)
  : list (R * option (list Landmark)) :=
  map (fun time => (time, Some lm)) times.

(** No comma in the string. *)
Fixpoint commaFree (s : string) : Prop :=
  match s with
  | EmptyString => True
  | String c rest => c <> ","%char /\ commaFree rest
  end.

(** * Properties *)

(** ** Numbers and vectors *)

Lemma ltb_lt (a b : R) : ltb a b = true <-> a < b.
Proof.
  unfold ltb. destruct (Rlt_dec a b); split; intros; try easy.
Qed.

Lemma ltb_nlt (a b : R) : ltb a b = false <-> ~ a < b.
Proof.
  unfold ltb. destruct (Rlt_dec a b); split; intros; try easy.
Qed.

Lemma gtb_gt (a b : R) : gtb a b = true <-> a > b.
Proof. unfold gtb. apply ltb_lt. Qed.

Lemma gtb_ngt (a b : R) : gtb a b = false <-> ~ a > b.
Proof. unfold gtb. apply ltb_nlt. Qed.

Lemma orElse_zero (b : R) : orElse 0 b = b.
Proof. unfold orElse. destruct (Req_dec_T 0 0); [reflexivity | contradiction]. Qed.

Lemma orElse_nonzero (a b : R) : a <> 0 -> orElse a b = a.
Proof. unfold orElse. destruct (Req_dec_T a 0); [contradiction | reflexivity]. Qed.

Module Vector3Facts.
Import Vector3.

Lemma length_nonneg (v : t) : 0 <= length v.
Proof. apply sqrt_pos. Qed.

Lemma sum_squares_nonneg (a b c : R) : 0 <= a * a + b * b + c * c.
Proof. nra. Qed.

Lemma length_zero : length zero = 0.
Proof.
  unfold length, zero; simpl.
  replace (0 * 0 + 0 * 0 + 0 * 0) with 0 by ring. apply sqrt_0.
Qed.

Lemma length_eq_0 (v : t) : length v = 0 -> v = zero.
Proof.
  unfold length. intros H. apply sqrt_eq_0 in H; [| apply sum_squares_nonneg].
  destruct v as [a b c]; simpl in *. unfold zero.
  assert (a = 0) by nra. assert (b = 0) by nra. assert (c = 0) by nra.
  subst. reflexivity.
Qed.

Lemma length_multiplyScalar (v : t) (s : R) :
  0 <= s -> length (multiplyScalar v s) = length v * s.
Proof.
  intros Hs. unfold length, multiplyScalar; simpl.
  replace (x v * s * (x v * s) + y v * s * (y v * s) + z v * s * (z v * s))
    with ((x v * x v + y v * y v + z v * z v) * (s * s)) by ring.
  rewrite sqrt_mult_alt by apply sum_squares_nonneg.
  rewrite sqrt_square by assumption. reflexivity.
Qed.

(** Rescaling does nothing to the zero vector: [normalize] divides it
    by [1]. *)
Lemma setLength_zero (l : R) : setLength zero l = zero.
Proof.
  unfold setLength, normalize, divideScalar, normalizeDivisor.
  rewrite length_zero, orElse_zero.
  unfold multiplyScalar, zero; simpl. f_equal; field.
Qed.

Lemma normalizeDivisor_nonzero (v : t) : normalizeDivisor v <> 0.
Proof.
  unfold normalizeDivisor, orElse.
  destruct (Req_dec_T (length v) 0); [lra | assumption].
Qed.

(** Any other vector gets the length asked for. *)
Lemma length_setLength (v : t) (l : R) :
  v <> zero -> 0 <= l -> length (setLength v l) = l.
Proof.
  intros Hv Hl.
  assert (Hn : length v <> 0) by (intros H; apply Hv, length_eq_0, H).
  assert (Hp : 0 < length v) by (pose proof (length_nonneg v); lra).
  unfold setLength, normalize, divideScalar, normalizeDivisor.
  rewrite orElse_nonzero by assumption.
  rewrite !length_multiplyScalar; try assumption.
  - field. assumption.
  - apply Rlt_le. unfold Rdiv. rewrite Rmult_1_l. apply Rinv_0_lt_compat, Hp.
Qed.

(** Two points that differ in [y] only. *)
Lemma distanceTo_along_y (a b1 b2 c : R) :
  b2 <= b1 -> distanceTo (mk a b1 c) (mk a b2 c) = b1 - b2.
Proof.
  intros H. unfold distanceTo, distanceToSquared; simpl.
  replace ((a - a) * (a - a) + (b1 - b2) * (b1 - b2) + (c - c) * (c - c))
    with ((b1 - b2) * (b1 - b2)) by ring.
  apply sqrt_square. lra.
Qed.

End Vector3Facts.

(** ** The gesture classifier and the mode *)

Lemma pinchDistance_upright (thumb index tips : R) :
  index <= thumb ->
  pinchDistance (uprightHand thumb index tips) = Some (thumb - index).
Proof.
  intros H. unfold pinchDistance, uprightHand, hand, vec; simpl.
  rewrite Vector3Facts.distanceTo_along_y by assumption. reflexivity.
Qed.

Lemma avgDist_upright (thumb index tips : R) :
  0.5 <= tips ->
  avgDist (uprightHand thumb index tips) = Some (tips - 0.5).
Proof.
  intros H. unfold avgDist, uprightHand, hand, vec; simpl.
  rewrite Vector3Facts.distanceTo_along_y by assumption.
  f_equal. field.
Qed.

Lemma gestures_classify (currentMode : AppMode) (lm : list Landmark) (d a : R) :
  pinchDistance lm = Some d -> avgDist lm = Some a ->
  gestures currentMode lm = Some (classify currentMode d a).
Proof.
  intros Hd Ha. unfold gestures. rewrite Hd, Ha. reflexivity.
Qed.

(** The mode a frame with a hand ends in is the one its [setMode] calls
    leave. *)
Lemma animate_mode (random : nat -> R) (time : R) (lm : list Landmark)
    (w w' : World) :
  animate random time (Some lm) w = Some w' ->
  exists calls,
    gestures (mode w) lm = Some calls /\ mode w' = setModes (mode w) calls.
Proof.
  unfold animate. intros H.
  destruct (nth_error lm 9) as [palm |]; simpl in H; [| discriminate].
  destruct (gestures (mode w) lm) as [calls |]; simpl in H; [| discriminate].
  destruct (selectFocus random (mode w) (focusTarget w) (scene w))
    as [[target s] |]; simpl in H; [| discriminate].
  injection H as <-. exists calls. split; reflexivity.
Qed.

(** Without a hand the mode stays. *)
Lemma animate_no_hand_mode (random : nat -> R) (time : R) (w w' : World) :
  animate random time None w = Some w' -> mode w' = mode w.
Proof.
  unfold animate. intros H. simpl in H.
  destruct (selectFocus random (mode w) (focusTarget w) (scene w))
    as [[target s] |]; simpl in H; [| discriminate].
  injection H as <-. reflexivity.
Qed.

(** A frame with a hand runs to its end when the landmarks it reads are
    there and the focus step runs. *)
Lemma animate_hand (random : nat -> R) (time : R) (lm : list Landmark)
    (w : World) (palm : Landmark) (calls : list AppMode)
    (target : option nat) (s : Scene) :
  nth_error lm 9 = Some palm ->
  gestures (mode w) lm = Some calls ->
  selectFocus random (mode w) (focusTarget w) (scene w) = Some (target, s) ->
  exists w',
    animate random time (Some lm) w = Some w'
    /\ mode w' = setModes (mode w) calls
    /\ focusTarget w' = target.
Proof.
  intros Hpalm Hcalls Hfocus. unfold animate.
  rewrite Hpalm. simpl. rewrite Hcalls. simpl. rewrite Hfocus. simpl.
  eexists. repeat split.
Qed.

(** C1, as the code has it.  When the pinch condition and the fist
    condition both hold, the frame calls [setMode(FOCUS)] unless the
    current mode is FOCUS and then [setMode(TREE)] unless the current
    mode is TREE.  The later call decides: the frame ends in FOCUS when
    the current mode is TREE, and in TREE when it is SCATTER or FOCUS. *)
Theorem pinch_then_fist (currentMode : AppMode) (lm : list Landmark) (d a : R) :
  pinchDistance lm = Some d -> avgDist lm = Some a ->
  d < 0.05 -> a < 0.25 ->
  gestures currentMode lm
    = Some (switchTo currentMode FOCUS ++ switchTo currentMode TREE)
  /\ setModes currentMode (switchTo currentMode FOCUS ++ switchTo currentMode TREE)
     = match currentMode with TREE => FOCUS | SCATTER | FOCUS => TREE end
  /\ (forall random time w w',
        mode w = currentMode ->
        animate random time (Some lm) w = Some w' ->
        mode w'
        = match currentMode with TREE => FOCUS | SCATTER | FOCUS => TREE end).
Proof.
  intros Hd Ha Hpinch Hfist.
  assert (Hcalls : gestures currentMode lm
                   = Some (switchTo currentMode FOCUS ++ switchTo currentMode TREE)).
  { rewrite (gestures_classify currentMode lm d a Hd Ha). unfold classify.
    rewrite (proj2 (ltb_lt d 0.05) Hpinch), (proj2 (ltb_lt a 0.25) Hfist).
    reflexivity. }
  assert (Hmode : setModes currentMode
                    (switchTo currentMode FOCUS ++ switchTo currentMode TREE)
                  = match currentMode with
                    | TREE => FOCUS
                    | SCATTER | FOCUS => TREE
                    end)
    by (destruct currentMode; reflexivity).
  split; [assumption |]. split; [assumption |].
  intros random time w w' Hw Hrun.
  destruct (animate_mode _ _ _ _ _ Hrun) as (calls & Hg & Hm).
  rewrite Hw in Hg, Hm. rewrite Hcalls in Hg. injection Hg as <-.
  rewrite Hm. assumption.
Qed.

Lemma pinch_then_fist_witness :
  pinchDistance pinchedFist = Some (0.43 - 0.4)
  /\ avgDist pinchedFist = Some (0.6 - 0.5)
  /\ 0.43 - 0.4 < 0.05
  /\ 0.6 - 0.5 < 0.25
  /\ gestures TREE pinchedFist = Some [FOCUS]
  /\ gestures SCATTER pinchedFist = Some [FOCUS; TREE]
  /\ gestures FOCUS pinchedFist = Some [TREE].
Proof.
  assert (Hd : pinchDistance pinchedFist = Some (0.43 - 0.4))
    by (apply pinchDistance_upright; lra).
  assert (Ha : avgDist pinchedFist = Some (0.6 - 0.5))
    by (apply avgDist_upright; lra).
  split; [assumption |]. split; [assumption |].
  split; [lra |]. split; [lra |].
  repeat split.
  - apply (pinch_then_fist TREE pinchedFist _ _ Hd Ha); lra.
  - apply (pinch_then_fist SCATTER pinchedFist _ _ Hd Ha); lra.
  - apply (pinch_then_fist FOCUS pinchedFist _ _ Hd Ha); lra.
Defined.

(** C1, as stated, fails: in mode SCATTER a hand whose thumb and index
    are 0.03 apart and whose other tips are 0.1 from the wrist meets both
    conditions, and the frame ends in TREE. *)
Lemma pinch_does_not_win :
  exists d a,
    pinchDistance pinchedFist = Some d /\ avgDist pinchedFist = Some a
    /\ d < 0.05 /\ a < 0.25
    /\ gestures SCATTER pinchedFist = Some [FOCUS; TREE]
    /\ setModes SCATTER [FOCUS; TREE] = TREE
    /\ (exists w',
          animate steadyRandom 16 (Some pinchedFist) scatterWorld = Some w'
          /\ mode w' = TREE)
    /\ TREE <> FOCUS.
Proof.
  exists (0.43 - 0.4), (0.6 - 0.5).
  assert (Hd : pinchDistance pinchedFist = Some (0.43 - 0.4))
    by (apply pinchDistance_upright; lra).
  assert (Ha : avgDist pinchedFist = Some (0.6 - 0.5))
    by (apply avgDist_upright; lra).
  assert (Hg : gestures SCATTER pinchedFist = Some [FOCUS; TREE]).
  { rewrite (gestures_classify SCATTER pinchedFist _ _ Hd Ha). unfold classify.
    rewrite (proj2 (ltb_lt _ _)) by lra. rewrite (proj2 (ltb_lt _ _)) by lra.
    reflexivity. }
  repeat split; try assumption; try lra.
  - destruct (animate_hand steadyRandom 16 pinchedFist scatterWorld
                (mkLandmark 0.5 0.5 0) [FOCUS; TREE] None (scene scatterWorld))
      as (w' & Hrun & Hmode & _); try reflexivity; try assumption.
    exists w'. split; assumption.
  - discriminate.
Qed.

Lemma setModes_switchTo (currentMode m : AppMode) :
  setModes currentMode (switchTo currentMode m) = m.
Proof. destruct currentMode, m; reflexivity. Qed.

(** C4.  When the pinch condition does not hold, the only calls to
    [setMode] of the frame are those of the fist and open-hand test:
    below 0.25 the frame switches to TREE, above 0.4 to SCATTER, and from
    0.25 to 0.4 it makes no call and the mode stays.  So it is at 0.20,
    0.30 and 0.45. *)
Theorem fist_open_dead_zone (currentMode : AppMode) (lm : list Landmark) (d a : R) :
  pinchDistance lm = Some d -> avgDist lm = Some a ->
  ~ d < 0.05 ->
  exists calls,
    gestures currentMode lm = Some calls
    /\ (forall random time w w',
          mode w = currentMode ->
          animate random time (Some lm) w = Some w' ->
          mode w' = setModes currentMode calls)
    /\ (a < 0.25 ->
        calls = switchTo currentMode TREE /\ setModes currentMode calls = TREE)
    /\ (a > 0.4 ->
        calls = switchTo currentMode SCATTER
        /\ setModes currentMode calls = SCATTER)
    /\ (0.25 <= a <= 0.4 ->
        calls = [] /\ setModes currentMode calls = currentMode)
    /\ (a = 0.20 -> setModes currentMode calls = TREE)
    /\ (a = 0.30 -> calls = [])
    /\ (a = 0.45 -> setModes currentMode calls = SCATTER).
Proof.
  intros Hd Ha Hpinch.
  exists (classify currentMode d a). split; [apply gestures_classify; assumption |].
  split.
  { intros random time w w' Hw Hrun.
    destruct (animate_mode _ _ _ _ _ Hrun) as (calls & Hg & Hm).
    rewrite Hw in Hg, Hm.
    rewrite (gestures_classify currentMode lm d a Hd Ha) in Hg.
    injection Hg as <-. assumption. }
  unfold classify. rewrite (proj2 (ltb_nlt d 0.05) Hpinch). simpl.
  assert (Htree : a < 0.25 ->
                  (if ltb a 0.25 then switchTo currentMode TREE
                   else if gtb a 0.4 then switchTo currentMode SCATTER else [])
                  = switchTo currentMode TREE).
  { intros H. rewrite (proj2 (ltb_lt a 0.25) H). reflexivity. }
  assert (Hscatter : a > 0.4 ->
                  (if ltb a 0.25 then switchTo currentMode TREE
                   else if gtb a 0.4 then switchTo currentMode SCATTER else [])
                  = switchTo currentMode SCATTER).
  { intros H. rewrite (proj2 (ltb_nlt a 0.25)) by lra.
    rewrite (proj2 (gtb_gt a 0.4) H). reflexivity. }
  assert (Hdead : 0.25 <= a <= 0.4 ->
                  (if ltb a 0.25 then switchTo currentMode TREE
                   else if gtb a 0.4 then switchTo currentMode SCATTER else [])
                  = []).
  { intros H. rewrite (proj2 (ltb_nlt a 0.25)) by lra.
    rewrite (proj2 (gtb_ngt a 0.4)) by lra. reflexivity. }
  repeat split.
  - apply Htree; assumption.
  - rewrite Htree by assumption. apply setModes_switchTo.
  - apply Hscatter; assumption.
  - rewrite Hscatter by assumption. apply setModes_switchTo.
  - apply Hdead; assumption.
  - rewrite Hdead by assumption. reflexivity.
  - intros H. rewrite Htree by lra. apply setModes_switchTo.
  - intros H. apply Hdead; lra.
  - intros H. rewrite Hscatter by lra. apply setModes_switchTo.
Qed.

Lemma fist_open_dead_zone_witness :
  pinchDistance fistHand = Some (0.6 - 0.3)
  /\ avgDist fistHand = Some (0.7 - 0.5)
  /\ ~ 0.6 - 0.3 < 0.05
  /\ gestures SCATTER fistHand = Some [TREE].
Proof.
  assert (Hd : pinchDistance fistHand = Some (0.6 - 0.3))
    by (apply pinchDistance_upright; lra).
  assert (Ha : avgDist fistHand = Some (0.7 - 0.5))
    by (apply avgDist_upright; lra).
  assert (Hp : ~ 0.6 - 0.3 < 0.05) by lra.
  repeat split; try assumption.
  destruct (fist_open_dead_zone SCATTER fistHand _ _ Hd Ha Hp)
    as (calls & Hcalls & _ & Htree & _).
  rewrite Hcalls. f_equal. apply Htree. lra.
Defined.

(** The three sample hands: 0.20 from the wrist switches to TREE, 0.30
    makes no call, 0.45 switches to SCATTER. *)
Lemma fist_open_samples :
  gestures SCATTER fistHand = Some [TREE]
  /\ gestures SCATTER relaxedHand = Some []
  /\ gestures TREE relaxedHand = Some []
  /\ gestures TREE openHand = Some [SCATTER].
Proof.
  assert (Hgest : forall m tips, 0.5 <= tips ->
            gestures m (uprightHand 0.6 0.3 tips)
            = Some (classify m (0.6 - 0.3) (tips - 0.5))).
  { intros m tips H. apply gestures_classify.
    - apply pinchDistance_upright; lra.
    - apply avgDist_upright; assumption. }
  unfold fistHand, relaxedHand, openHand.
  rewrite !Hgest by lra. unfold classify.
  rewrite (proj2 (ltb_nlt (0.6 - 0.3) 0.05)) by lra.
  rewrite (proj2 (ltb_lt (0.7 - 0.5) 0.25)) by lra.
  rewrite (proj2 (ltb_nlt (0.8 - 0.5) 0.25)) by lra.
  rewrite (proj2 (gtb_ngt (0.8 - 0.5) 0.4)) by lra.
  rewrite (proj2 (ltb_nlt (0.95 - 0.5) 0.25)) by lra.
  rewrite (proj2 (gtb_gt (0.95 - 0.5) 0.4)) by lra.
  repeat split.
Qed.

(** C5.  A signal [s] reaches the mode through [if (currentMode !== s)
    setMode(s)].  Applying it in mode [m] leaves mode [s]; applying it
    again then makes no call to [setMode] and leaves the same mode. *)
Theorem mode_transition_idempotent (s m : AppMode) :
  let once := setModes m (switchTo m s) in
  let twice := setModes once (switchTo once s) in
  once = s /\ switchTo once s = [] /\ twice = once.
Proof.
  destruct s, m; repeat split.
Qed.

(** ** Layout targets *)

Lemma treeRadius_nonneg (i particleCount : nat) :
  (i <= particleCount)%nat -> (0 < particleCount)%nat ->
  0 <= treeRadius i particleCount.
Proof.
  intros Hi Hn. unfold treeRadius.
  assert (0 < INR particleCount) by (apply lt_0_INR; assumption).
  assert (INR i <= INR particleCount) by (apply le_INR; assumption).
  assert (INR i / INR particleCount <= 1).
  { apply Rmult_le_reg_r with (INR particleCount); [assumption |].
    unfold Rdiv. rewrite Rmult_assoc, Rinv_l by lra. lra. }
  lra.
Qed.

(** The distance of the TREE target from the axis of the cone is the
    radius. *)
Lemma treeTarget_radius (i particleCount : nat) :
  (i <= particleCount)%nat -> (0 < particleCount)%nat ->
  let p := treeTarget i particleCount in
  sqrt (Vector3.x p * Vector3.x p + Vector3.z p * Vector3.z p)
  = treeRadius i particleCount.
Proof.
  intros Hi Hn. simpl.
  set (r := treeRadius i particleCount).
  set (a := INR i / INR particleCount * 50 * PI).
  replace (cos a * r * (cos a * r) + sin a * r * (sin a * r))
    with ((Rsqr (sin a) + Rsqr (cos a)) * (r * r)) by (unfold Rsqr; ring).
  rewrite sin2_cos2, Rmult_1_l.
  apply sqrt_square. apply treeRadius_nonneg; assumption.
Qed.

(** C3.  In a store of [particleCount > 0] particles the TREE radius
    [15 * (1 - i / particleCount)] does not grow with the index: for
    [i <= j < particleCount] the radius at [j] is at most the radius at
    [i].  The radius is the distance of the target from the axis. *)
Theorem tree_radius_nonincreasing (particleCount i j : nat) :
  (0 < particleCount)%nat -> (i <= j)%nat -> (j < particleCount)%nat ->
  treeRadius i particleCount = 15 * (1 - INR i / INR particleCount)
  /\ treeRadius i particleCount >= treeRadius j particleCount
  /\ (let p := treeTarget i particleCount in
      let q := treeTarget j particleCount in
      sqrt (Vector3.x p * Vector3.x p + Vector3.z p * Vector3.z p)
      >= sqrt (Vector3.x q * Vector3.x q + Vector3.z q * Vector3.z q)).
Proof.
  intros Hn Hij Hj.
  assert (Hmono : treeRadius i particleCount >= treeRadius j particleCount).
  { unfold treeRadius.
    assert (0 < INR particleCount) by (apply lt_0_INR; assumption).
    assert (INR i <= INR j) by (apply le_INR; assumption).
    assert (INR i / INR particleCount <= INR j / INR particleCount).
    { unfold Rdiv. apply Rmult_le_compat_r; [| assumption].
      apply Rlt_le, Rinv_0_lt_compat. assumption. }
    lra. }
  split; [reflexivity |]. split; [assumption |].
  cbv zeta. rewrite !treeTarget_radius by lia. assumption.
Qed.

Lemma tree_radius_nonincreasing_witness :
  (0 < 4001)%nat /\ (1000 <= 3000)%nat /\ (3000 < 4001)%nat
  /\ treeRadius 1000 4001 >= treeRadius 3000 4001.
Proof.
  repeat split; try lia.
  apply (tree_radius_nonincreasing 4001 1000 3000); lia.
Defined.

(** The clamp does what its comment says on every vector but the zero
    vector. *)
Lemma clampShell_in_shell (v : Vector3) :
  v <> Vector3.zero -> 8 <= Vector3.length (clampShell v) <= 20.
Proof.
  intros Hv. unfold clampShell.
  destruct (ltb (Vector3.length v) 8) eqn:Hlow.
  - rewrite Vector3Facts.length_setLength by (assumption || lra).
    rewrite (proj2 (gtb_ngt 8 20)) by lra.
    rewrite Vector3Facts.length_setLength by (assumption || lra). lra.
  - apply ltb_nlt in Hlow.
    destruct (gtb (Vector3.length v) 20) eqn:Hhigh.
    + rewrite Vector3Facts.length_setLength by (assumption || lra). lra.
    + apply gtb_ngt in Hhigh. lra.
Qed.

(** It leaves the zero vector where it is. *)
Lemma clampShell_zero : clampShell Vector3.zero = Vector3.zero.
Proof.
  unfold clampShell.
  rewrite Vector3Facts.length_zero.
  rewrite (proj2 (ltb_lt 0 8)) by lra.
  rewrite Vector3Facts.setLength_zero, Vector3Facts.length_zero.
  rewrite (proj2 (gtb_ngt 0 20)) by lra. reflexivity.
Qed.

(** A particle anchored at the origin drifts along its velocity. *)
Lemma scatterDrift_origin (p : ParticleData) (time : R) :
  initialPos p = Vector3.zero ->
  scatterDrift p time
  = Vector3.multiplyScalar (velocity p) (sin (time * 0.001) * 20).
Proof.
  intros H. unfold scatterDrift, Vector3.addScaledVector, Vector3.multiplyScalar.
  rewrite H. simpl. f_equal; ring.
Qed.

Lemma scatterDrift_origin_zero (p : ParticleData) (time : R) :
  initialPos p = Vector3.zero -> sin (time * 0.001) = 0 ->
  scatterDrift p time = Vector3.zero.
Proof.
  intros H Hsin. rewrite scatterDrift_origin by assumption.
  rewrite Hsin. unfold Vector3.multiplyScalar, Vector3.zero. f_equal; ring.
Qed.

Lemma sin_time_0 : sin (0 * 0.001) = 0.
Proof. rewrite Rmult_0_l. apply sin_0. Qed.

(** C2, at the input where the code misses it.  The photo added by the
    second effect is anchored at the origin; at time 0 its SCATTER
    target is the zero vector before the clamp and after it, so its
    length is 0 and not in [8, 20]. *)
Theorem scatter_clamp_misses_origin :
  initialPos photoAtOrigin = Vector3.zero
  /\ scatterDrift photoAtOrigin 0 = Vector3.zero
  /\ scatterTarget photoAtOrigin 0 = Vector3.zero
  /\ Vector3.length (scatterTarget photoAtOrigin 0) = 0
  /\ ~ (8 <= Vector3.length (scatterTarget photoAtOrigin 0) <= 20).
Proof.
  assert (Hdrift : scatterDrift photoAtOrigin 0 = Vector3.zero)
    by (apply scatterDrift_origin_zero; [reflexivity | apply sin_time_0]).
  assert (Htarget : scatterTarget photoAtOrigin 0 = Vector3.zero)
    by (unfold scatterTarget; rewrite Hdrift; apply clampShell_zero).
  repeat split; try assumption.
  - rewrite Htarget. apply Vector3Facts.length_zero.
  - rewrite Htarget, Vector3Facts.length_zero. lra.
Qed.

(** The same happens at every time to a particle anchored at the origin
    whose velocity drew the zero vector. *)
Lemma scatterTarget_still_origin (p : ParticleData) (time : R) :
  initialPos p = Vector3.zero -> velocity p = Vector3.zero ->
  scatterTarget p time = Vector3.zero.
Proof.
  intros Hpos Hvel. unfold scatterTarget.
  rewrite scatterDrift_origin by assumption. rewrite Hvel.
  replace (Vector3.multiplyScalar Vector3.zero (sin (time * 0.001) * 20))
    with Vector3.zero
    by (unfold Vector3.multiplyScalar, Vector3.zero; simpl; f_equal; ring).
  apply clampShell_zero.
Qed.

(** Everywhere else the SCATTER target is in the shell. *)
Lemma scatterTarget_in_shell (p : ParticleData) (time : R) :
  scatterDrift p time <> Vector3.zero ->
  8 <= Vector3.length (scatterTarget p time) <= 20.
Proof. intros H. apply clampShell_in_shell, H. Qed.

(** ** The particle store *)

(** Counting the particles of a type looks at the types only. *)
Lemma count_type (ty : ParticleType) (ps : list ParticleData) (tys : list ParticleType) :
  map type ps = tys ->
  List.length (filter (fun p => ParticleType_eqb (type p) ty) ps)
  = List.length (filter (fun t => ParticleType_eqb t ty) tys).
Proof.
  intros <-. induction ps as [| p ps IH]; simpl; [reflexivity |].
  destruct (ParticleType_eqb (type p) ty); simpl; rewrite IH; reflexivity.
Qed.

Lemma filter_repeat {A : Type} (f : A -> bool) (a : A) (n : nat) :
  filter f (repeat a n) = if f a then repeat a n else [].
Proof.
  induction n as [| n IH]; simpl.
  - destruct (f a); reflexivity.
  - rewrite IH. destruct (f a); reflexivity.
Qed.

(** Running [c] and then [f]: the final state. *)
Lemma execState_bind {A B : Type} (c : state Scene A) (f : A -> state Scene B)
    (s : Scene) :
  execState (bind c f) s = execState (f (evalState c s)) (execState c s).
Proof.
  unfold execState, evalState. simpl. destruct (runState c s). reflexivity.
Qed.

Section Store.

Variable random : nat -> R.

(** [addParticle] pushes one particle of the type asked for, at the
    position drawn for it. *)
Lemma addParticle_push (ty : ParticleType) (texture : option string) (s : Scene) :
  exists p k,
    particles (execState (addParticle random ty texture) s) = particles s ++ [p]
    /\ type p = ty
    /\ initialPos p
       = Vector3.mk ((random k - 0.5) * 50) ((random (S k) - 0.5) * 50)
                    ((random (S (S k)) - 0.5) * 50)
    /\ position (mesh p) = initialPos p.
Proof.
  unfold addParticle, execState.
  destruct ty, texture as [tex |]; simpl;
    try (destruct (ltb (random (draws s)) 0.3); simpl;
         [| destruct (ltb (random (draws s)) 0.6); simpl]);
    eexists; eexists; repeat split.
Qed.

Lemma times_push (ty : ParticleType) (texture : option string) (n : nat) :
  forall s,
    exists ps,
      particles (execState (times n (addParticle random ty texture)) s)
      = particles s ++ ps
      /\ map type ps = repeat ty n.
Proof.
  induction n as [| n IH]; intros s.
  - exists []. simpl. rewrite app_nil_r. split; reflexivity.
  - destruct (addParticle_push ty texture s) as (p & k & Hp & Hty & _).
    destruct (IH (execState (addParticle random ty texture) s)) as (ps & Hps & Hmap).
    exists (p :: ps). split.
    + change (times (S n) (addParticle random ty texture))
        with (addParticle random ty texture ;;
              times n (addParticle random ty texture)).
      rewrite execState_bind, Hps, Hp, <- app_assoc. reflexivity.
    + simpl. rewrite Hty, Hmap. reflexivity.
Qed.

(** C6.  The first effect creates 1500 DECORATION particles, then 2500
    DUST particles, then one PHOTO particle, in this order: 4001
    particles in the store. *)
Theorem initial_population :
  map type (particles (initScene random))
  = repeat DECORATION 1500 ++ repeat DUST 2500 ++ [PHOTO]
  /\ List.length (particles (initScene random)) = 4001%nat
  /\ List.length (filter (fun p => ParticleType_eqb (type p) DECORATION)
                         (particles (initScene random))) = 1500%nat
  /\ List.length (filter (fun p => ParticleType_eqb (type p) DUST)
                         (particles (initScene random))) = 2500%nat
  /\ List.length (filter isPhoto (particles (initScene random))) = 1%nat.
Proof.
  unfold initScene, createParticles.
  rewrite !execState_bind.
  destruct (times_push DECORATION None 1500 emptyScene) as (deco & Hdeco & Tdeco).
  set (s1 := execState (times 1500 (addParticle random DECORATION None)) emptyScene) in *.
  destruct (times_push DUST None 2500 s1) as (dust & Hdust & Tdust).
  set (s2 := execState (times 2500 (addParticle random DUST None)) s1) in *.
  destruct (addParticle_push PHOTO (Some initialPhotoTex) s2)
    as (photo & k & Hphoto & Tphoto & _).
  rewrite Hphoto, Hdust, Hdeco. cbn [particles emptyScene app].
  assert (Htypes : map type ((deco ++ dust) ++ [photo])
                   = repeat DECORATION 1500 ++ repeat DUST 2500 ++ [PHOTO]).
  { rewrite !map_app, Tdeco, Tdust, <- app_assoc. cbn [map]. rewrite Tphoto.
    reflexivity. }
  split; [exact Htypes |].
  split.
  { rewrite <- (length_map type), Htypes, !length_app, !repeat_length.
    reflexivity. }
  unfold isPhoto.
  rewrite !(count_type _ _ _ Htypes), !filter_app, !length_app, !filter_repeat.
  cbn [ParticleType_eqb filter List.length]. rewrite !repeat_length.
  repeat split.
Qed.

Lemma onTextureLoaded_push (url : string) (s : Scene) :
  exists p,
    particles (execState (onTextureLoaded random url) s) = particles s ++ [p]
    /\ type p = PHOTO
    /\ initialPos p = Vector3.zero
    /\ position (mesh p) = Vector3.zero.
Proof.
  unfold onTextureLoaded, execState. simpl.
  eexists. repeat split.
Qed.

Lemma pushedPhoto_snoc (ps : list ParticleData) (p : ParticleData) :
  type p = PHOTO -> pushedPhoto ps (ps ++ [p]).
Proof.
  intros Hp. unfold pushedPhoto. split; [| split].
  - rewrite length_app. simpl. lia.
  - intros i Hi. apply nth_error_app1. assumption.
  - exists p. split; [| split].
    + rewrite nth_error_app2 by lia. rewrite Nat.sub_diag. reflexivity.
    + assumption.
    + apply filter_In. split.
      * apply in_or_app. right. left. reflexivity.
      * unfold isPhoto. rewrite Hp. reflexivity.
Qed.

(** C7.  Adding a PHOTO particle, by [addParticle] or by the second
    effect for a new photo, makes the store one longer, leaves every
    particle it held at its index, and the new particle is among those
    the filter for PHOTO returns. *)
Theorem add_photo_appends (texture : option string) (url : string) (s : Scene) :
  pushedPhoto (particles s)
              (particles (execState (addParticle random PHOTO texture) s))
  /\ pushedPhoto (particles s)
                 (particles (execState (onTextureLoaded random url) s)).
Proof.
  split.
  - destruct (addParticle_push PHOTO texture s) as (p & k & Hp & Hty & _).
    rewrite Hp. apply pushedPhoto_snoc, Hty.
  - destruct (onTextureLoaded_push url s) as (p & Hp & Hty & _).
    rewrite Hp. apply pushedPhoto_snoc, Hty.
Qed.

(** C10, as the code has it.  The particle the second effect pushes for
    a new photo is a PHOTO whose [initialPos] is the origin, while
    [addParticle] draws a position.  In SCATTER mode the new photo
    drifts from the origin along its velocity, and when
    [sin (time * 0.001) = 0] its target before the clamp is the zero
    vector; [normalize], which [setLength] calls, then divides by 1 and
    by no zero length. *)
Theorem new_photo_anchored_at_origin (url : string) (s : Scene) :
  (exists p,
     particles (execState (onTextureLoaded random url) s) = particles s ++ [p]
     /\ type p = PHOTO
     /\ initialPos p = Vector3.zero
     /\ (forall time,
           scatterDrift p time
           = Vector3.multiplyScalar (velocity p) (sin (time * 0.001) * 20))
     /\ (forall time,
           sin (time * 0.001) = 0 ->
           scatterDrift p time = Vector3.zero
           /\ Vector3.normalizeDivisor (scatterDrift p time) = 1
           /\ Vector3.normalize (scatterDrift p time)
              = Vector3.divideScalar (scatterDrift p time) 1))
  /\ (forall ty texture,
        exists q k,
          particles (execState (addParticle random ty texture) s)
          = particles s ++ [q]
          /\ initialPos q
             = Vector3.mk ((random k - 0.5) * 50) ((random (S k) - 0.5) * 50)
                          ((random (S (S k)) - 0.5) * 50)).
Proof.
  split.
  - destruct (onTextureLoaded_push url s) as (p & Hp & Hty & Hpos & _).
    exists p. repeat split; try assumption.
    + intros time. apply scatterDrift_origin, Hpos.
    + apply scatterDrift_origin_zero; assumption.
    + rewrite scatterDrift_origin_zero by assumption.
      unfold Vector3.normalizeDivisor.
      rewrite Vector3Facts.length_zero. apply orElse_zero.
    + unfold Vector3.normalize. rewrite scatterDrift_origin_zero by assumption.
      unfold Vector3.normalizeDivisor.
      rewrite Vector3Facts.length_zero, orElse_zero. reflexivity.
  - intros ty texture.
    destruct (addParticle_push ty texture s) as (q & k & Hq & _ & Hpos & _).
    exists q, k. split; assumption.
Qed.

End Store.

Lemma photoAtOrigin_loaded :
  particles (execState (onTextureLoaded steadyRandom "photo") emptyScene)
  = [photoAtOrigin].
Proof. reflexivity. Qed.

Lemma new_photo_anchored_at_origin_witness :
  sin (0 * 0.001) = 0
  /\ scatterDrift photoAtOrigin 0 = Vector3.zero
  /\ Vector3.normalizeDivisor (scatterDrift photoAtOrigin 0) = 1.
Proof.
  destruct (new_photo_anchored_at_origin steadyRandom "photo" emptyScene)
    as [(p & Hp & _ & _ & _ & Hzero) _].
  rewrite photoAtOrigin_loaded in Hp. simpl in Hp.
  injection Hp as <-.
  destruct (Hzero 0 sin_time_0) as (Hdrift & Hdiv & _).
  split; [apply sin_time_0 |]. split; assumption.
Defined.

(** C10, as stated, fails: for the photo loaded into an empty scene, at
    time 0, the target before the clamp is the zero vector and the
    number the rescale divides by is 1, not 0. *)
Lemma rescale_divides_by_one :
  particles (execState (onTextureLoaded steadyRandom "photo") emptyScene)
  = [photoAtOrigin]
  /\ sin (0 * 0.001) = 0
  /\ scatterDrift photoAtOrigin 0 = Vector3.zero
  /\ Vector3.length (scatterDrift photoAtOrigin 0) = 0
  /\ Vector3.normalizeDivisor (scatterDrift photoAtOrigin 0) = 1
  /\ Vector3.normalizeDivisor (scatterDrift photoAtOrigin 0) <> 0.
Proof.
  assert (Hdrift : scatterDrift photoAtOrigin 0 = Vector3.zero)
    by (apply scatterDrift_origin_zero; [reflexivity | apply sin_time_0]).
  split; [apply photoAtOrigin_loaded |].
  split; [apply sin_time_0 |].
  split; [assumption |].
  rewrite Hdrift, Vector3Facts.length_zero.
  unfold Vector3.normalizeDivisor.
  rewrite Vector3Facts.length_zero, orElse_zero.
  repeat split. lra.
Qed.

(** ** The focus target *)

(** A number drawn in [0, 1) picks an index of the list. *)
Lemma at_index_random {A : Type} (l : list A) (r : R) :
  l <> [] -> 0 <= r < 1 ->
  exists a, at_index l (floor (r * INR (List.length l))) = Some a /\ In a l.
Proof.
  intros Hl [Hr0 Hr1].
  assert (Hn : 0 < INR (List.length l)).
  { apply lt_0_INR. destruct l; [contradiction | simpl; lia]. }
  set (v := r * INR (List.length l)).
  assert (Hv0 : 0 <= v) by (unfold v; nra).
  assert (Hv1 : v < INR (List.length l)) by (unfold v; nra).
  destruct (base_Int_part v) as [Hle Hgt].
  assert (Hz0 : (0 <= Int_part v)%Z).
  { apply Z.lt_succ_r. apply lt_IZR. rewrite succ_IZR. lra. }
  assert (Hz1 : (Int_part v < Z.of_nat (List.length l))%Z).
  { apply lt_IZR. rewrite <- INR_IZR_INZ. lra. }
  unfold at_index, floor.
  destruct (Z.ltb_spec (Int_part v) 0); [lia |].
  destruct (nth_error l (Z.to_nat (Int_part v))) as [a |] eqn:Hnth.
  - exists a. split; [reflexivity |]. eapply nth_error_In, Hnth.
  - apply nth_error_None in Hnth. lia.
Qed.

Section Focus.

Variable random : nat -> R.

(** What the frame leaves in [focusTarget] is what [selectFocus] answers. *)
Lemma animate_focusTarget (time : R) (hand : option (list Landmark))
    (w w' : World) :
  animate random time hand w = Some w' ->
  exists s,
    selectFocus random (mode w) (focusTarget w) (scene w)
    = Some (focusTarget w', s).
Proof.
  unfold animate. intros H.
  destruct hand as [lm |].
  - destruct (nth_error lm 9) as [palm |]; simpl in H; [| discriminate].
    destruct (gestures (mode w) lm) as [calls |]; simpl in H; [| discriminate].
    destruct (selectFocus random (mode w) (focusTarget w) (scene w))
      as [[target s] |]; simpl in H; [| discriminate].
    injection H as <-. exists s. reflexivity.
  - simpl in H.
    destruct (selectFocus random (mode w) (focusTarget w) (scene w))
      as [[target s] |]; simpl in H; [| discriminate].
    injection H as <-. exists s. reflexivity.
Qed.

(** A frame without a hand runs to its end when the focus step does. *)
Lemma animate_no_hand (time : R) (w : World) (target : option nat) (s : Scene) :
  selectFocus random (mode w) (focusTarget w) (scene w) = Some (target, s) ->
  exists w',
    animate random time None w = Some w'
    /\ focusTarget w' = target /\ mode w' = mode w.
Proof.
  intros H. unfold animate. simpl. rewrite H. simpl.
  eexists. repeat split.
Qed.

Lemma selectFocus_not_focus (currentMode : AppMode) (target : option nat)
    (s : Scene) :
  currentMode <> FOCUS ->
  selectFocus random currentMode target s = Some (None, s).
Proof.
  intros H. unfold selectFocus.
  destruct currentMode; try contradiction; destruct target; reflexivity.
Qed.

Lemma selectFocus_keeps (id : nat) (s : Scene) :
  selectFocus random FOCUS (Some id) s = Some (Some id, s).
Proof. reflexivity. Qed.

Lemma selectFocus_no_photo (s : Scene) :
  filter isPhoto (particles s) = [] ->
  selectFocus random FOCUS None s = Some (None, s).
Proof.
  intros H. unfold selectFocus. rewrite H. reflexivity.
Qed.

Lemma selectFocus_picks_photo (s : Scene) :
  filter isPhoto (particles s) <> [] ->
  0 <= random (draws s) < 1 ->
  exists p,
    In p (particles s) /\ type p = PHOTO
    /\ selectFocus random FOCUS None s
       = Some (Some (mesh_id (mesh p)),
               mkScene (particles s) (children s) (S (draws s))).
Proof.
  intros Hphotos Hr. unfold selectFocus.
  destruct (at_index_random _ _ Hphotos Hr) as (p & Hat & Hin).
  apply filter_In in Hin. destruct Hin as [Hin Hty].
  exists p. split; [assumption |]. split.
  - unfold isPhoto in Hty. destruct (type p); try discriminate. reflexivity.
  - destruct (filter isPhoto (particles s)) as [| p0 photos] eqn:Hf;
      [contradiction |].
    cbn [List.length Nat.ltb Nat.leb].
    cbn [runState Math_random]. simpl. simpl in Hat. rewrite Hat. reflexivity.
Qed.

End Focus.

(** ** Image generation *)

Module geminiFacts.
Import geminiService.

Local Open Scope string_scope.

(** The loop returns the first part with inline data. *)
Lemma firstImage_some (ps : list Part) (url : string) :
  firstImage ps = Some url <->
  exists before part blob after,
    ps = (before ++ part :: after)%list
    /\ Forall (fun q => inlineData q = None) before
    /\ inlineData part = Some blob
    /\ url = "data:image/png;base64," ++ interpolate (data blob).
Proof.
  induction ps as [| q ps IH]; simpl.
  - split; [discriminate |].
    intros (before & part & blob & after & H & _). destruct before; discriminate.
  - destruct (inlineData q) as [b |] eqn:Hq.
    + split.
      * intros H. injection H as <-.
        exists [], q, b, ps. repeat split; [constructor | assumption].
      * intros (before & part & blob & after & Hps & Hbefore & Hpart & ->).
        destruct before as [| q' before]; simpl in Hps; injection Hps as -> ->.
        -- rewrite Hq in Hpart. injection Hpart as ->. reflexivity.
        -- inversion Hbefore; subst. congruence.
    + rewrite IH. split.
      * intros (before & part & blob & after & -> & Hbefore & Hpart & ->).
        exists (q :: before), part, blob, after.
        repeat split; [constructor |]; assumption.
      * intros (before & part & blob & after & Hps & Hbefore & Hpart & ->).
        destruct before as [| q' before]; simpl in Hps; injection Hps as -> ->.
        -- congruence.
        -- inversion Hbefore; subst.
           exists before, part, blob, after. repeat split; assumption.
Qed.

Lemma firstImage_none (ps : list Part) :
  firstImage ps = None <-> Forall (fun q => inlineData q = None) ps.
Proof.
  induction ps as [| q ps IH]; simpl.
  - split; [constructor | reflexivity].
  - destruct (inlineData q) as [b |] eqn:Hq.
    + split; [discriminate |]. intros H. inversion H; subst. congruence.
    + rewrite IH. split.
      * intros H. constructor; assumption.
      * intros H. inversion H; assumption.
Qed.

End geminiFacts.

Lemma generate_answer
    (ai : geminiService.Request -> geminiService.Error + geminiService.Response)
    (prompt : string) (size : geminiService.ImageSize)
    (response : geminiService.Response) :
  ai (geminiService.imageRequest prompt size) = inr response ->
  geminiService.generateChristmasImage ai prompt size
  = match geminiService.firstImage (geminiService.responseParts response) with
    | Some url => (geminiService.fulfilled url, [])
    | None =>
        (geminiService.rejected
           (geminiService.mkError "No image generated."%string),
         [geminiService.mkError "No image generated."%string])
    end.
Proof.
  intros Hai. unfold geminiService.generateChristmasImage. rewrite Hai.
  destruct (geminiService.firstImage (geminiService.responseParts response));
    reflexivity.
Qed.

(** C9, as the code has it.  When the service answers,
    [generateChristmasImage] looks at the parts of the first candidate
    only, whatever the other candidates hold.  It throws exactly when
    none of these parts has an [inlineData], and also when the
    candidates, the content of the first one or its parts are missing;
    the error is the one with message "No image generated.", which is
    logged.  When a part of the first candidate has an [inlineData], the
    promise is fulfilled with the data URL made from the [data] of the
    first such part, and nothing is logged. *)
Theorem generate_fails_iff_no_image
    (ai : geminiService.Request -> geminiService.Error + geminiService.Response)
    (prompt : string) (size : geminiService.ImageSize)
    (response : geminiService.Response) :
  ai (geminiService.imageRequest prompt size) = inr response ->
  let outcome := geminiService.generateChristmasImage ai prompt size in
  let noImage :=
    (geminiService.rejected (geminiService.mkError "No image generated."%string),
     [geminiService.mkError "No image generated."%string]) in
  (geminiService.candidates response = None
   \/ geminiService.candidates response = Some [] -> outcome = noImage)
  /\ (forall c others,
        geminiService.candidates response = Some (c :: others) ->
        (geminiService.content c = None -> outcome = noImage)
        /\ forall ct,
             geminiService.content c = Some ct ->
             (geminiService.parts ct = None -> outcome = noImage)
             /\ forall ps,
                  geminiService.parts ct = Some ps ->
                  ((exists e, fst outcome = geminiService.rejected e)
                   <-> Forall (fun q => geminiService.inlineData q = None) ps)
                  /\ (Forall (fun q => geminiService.inlineData q = None) ps ->
                      outcome = noImage)
                  /\ (forall before part blob after,
                        ps = before ++ part :: after ->
                        Forall (fun q => geminiService.inlineData q = None) before ->
                        geminiService.inlineData part = Some blob ->
                        outcome
                        = (geminiService.fulfilled
                             ("data:image/png;base64,"
                              ++ geminiService.interpolate
                                   (geminiService.data blob))%string,
                           []))).
Proof.
  intros Hai. cbv zeta. rewrite (generate_answer ai prompt size response Hai).
  unfold geminiService.responseParts. split.
  - intros [H | H]; rewrite H; reflexivity.
  - intros c others Hc. rewrite Hc. split.
    + intros Hcontent. rewrite Hcontent. reflexivity.
    + intros ct Hcontent. rewrite Hcontent. split.
      * intros Hparts. rewrite Hparts. reflexivity.
      * intros ps Hparts. rewrite Hparts.
        assert (Hnone : Forall (fun q => geminiService.inlineData q = None) ps ->
                        geminiService.firstImage ps = None)
          by apply geminiFacts.firstImage_none.
        split; [| split].
        -- split.
           ++ intros (e & He).
              destruct (geminiService.firstImage ps) as [url |] eqn:Hf;
                [discriminate |].
              apply geminiFacts.firstImage_none, Hf.
           ++ intros Hall. rewrite (Hnone Hall). eexists. reflexivity.
        -- intros Hall. rewrite (Hnone Hall). reflexivity.
        -- intros before part blob after Hps Hbefore Hpart.
           assert (Hf : geminiService.firstImage ps
                        = Some ("data:image/png;base64,"
                                ++ geminiService.interpolate
                                     (geminiService.data blob))%string).
           { apply geminiFacts.firstImage_some.
             exists before, part, blob, after. repeat split; assumption. }
           rewrite Hf. reflexivity.
Qed.

Lemma generate_fails_iff_no_image_witness :
  absentAi (geminiService.imageRequest "a tree" geminiService.size1K)
  = inr (geminiService.mkResponse None)
  /\ geminiService.generateChristmasImage absentAi "a tree" geminiService.size1K
     = (geminiService.rejected (geminiService.mkError "No image generated."),
        [geminiService.mkError "No image generated."]).
Proof.
  split; [reflexivity |].
  apply (generate_fails_iff_no_image absentAi "a tree" geminiService.size1K
           (geminiService.mkResponse None)).
  - reflexivity.
  - left. reflexivity.
Defined.

(** C9, as stated, fails both ways.  An answer that returns an image
    part in its second candidate is rejected with "No image generated.";
    and a malformed answer, whose only part has an [inlineData] without
    [data] and so carries no image data, does not take the failure path:
    the promise is fulfilled with a URL that ends in "undefined". *)
Lemma generate_not_exactly_when_no_image :
  (exists part,
     In part (allParts laterCandidateResponse) /\ carriesImageData part)
  /\ geminiService.generateChristmasImage laterCandidateAi "a tree"
       geminiService.size1K
     = (geminiService.rejected (geminiService.mkError "No image generated."),
        [geminiService.mkError "No image generated."])
  /\ (forall part, In part (allParts datalessResponse) -> ~ carriesImageData part)
  /\ geminiService.generateChristmasImage datalessAi "a tree"
       geminiService.size1K
     = (geminiService.fulfilled "data:image/png;base64,undefined", []).
Proof.
  split; [| split; [| split]].
  - eexists. split.
    + simpl. right. left. reflexivity.
    + eexists. eexists. split; reflexivity.
  - reflexivity.
  - intros part Hin. simpl in Hin. destruct Hin as [<- | []].
    intros (blob & d & Hblob & Hdata). simpl in Hblob.
    injection Hblob as <-. discriminate.
  - reflexivity.
Qed.

(** An answer with a text part and an image part gives the data URL of
    the image; a call that throws gives the error of the call. *)
Lemma generate_samples :
  geminiService.generateChristmasImage imageAi "a tree" geminiService.size2K
  = (geminiService.fulfilled "data:image/png;base64,iVBOR", [])
  /\ geminiService.generateChristmasImage failingAi "a tree" geminiService.size4K
     = (geminiService.rejected (geminiService.mkError "fetch failed"),
        [geminiService.mkError "fetch failed"]).
Proof. split; reflexivity. Qed.

(** * Further properties of the code *)

(** ** Gestures *)

(** X1.  A pinch with the other fingers neither closed nor open calls
    [setMode(FOCUS)], unless the mode is FOCUS already, and the frame
    ends in FOCUS.  A pinch with an open hand calls [setMode(FOCUS)] and
    then [setMode(SCATTER)] in TREE, only [setMode(SCATTER)] in FOCUS,
    and only [setMode(FOCUS)] in SCATTER: the frame ends in SCATTER from
    TREE and from FOCUS, and in FOCUS from SCATTER. *)
Theorem pinch_outside_fist (currentMode : AppMode) (lm : list Landmark) (d a : R) :
  pinchDistance lm = Some d -> avgDist lm = Some a ->
  d < 0.05 ->
  exists calls,
    gestures currentMode lm = Some calls
    /\ (0.25 <= a <= 0.4 ->
        calls = match currentMode with
                | TREE | SCATTER => [FOCUS]
                | FOCUS => []
                end
        /\ setModes currentMode calls = FOCUS)
    /\ (a > 0.4 ->
        calls = match currentMode with
                | TREE => [FOCUS; SCATTER]
                | SCATTER => [FOCUS]
                | FOCUS => [SCATTER]
                end
        /\ setModes currentMode calls
           = match currentMode with SCATTER => FOCUS | TREE | FOCUS => SCATTER end).
Proof.
  intros Hd Ha Hpinch.
  exists (classify currentMode d a). split; [apply gestures_classify; assumption |].
  unfold classify. rewrite (proj2 (ltb_lt d 0.05) Hpinch). split.
  - intros H. rewrite (proj2 (ltb_nlt a 0.25)) by lra.
    rewrite (proj2 (gtb_ngt a 0.4)) by lra.
    destruct currentMode; split; reflexivity.
  - intros H. rewrite (proj2 (ltb_nlt a 0.25)) by lra.
    rewrite (proj2 (gtb_gt a 0.4)) by lra.
    destruct currentMode; split; reflexivity.
Qed.

Lemma pinch_outside_fist_witness :
  pinchDistance (uprightHand 0.43 0.4 0.8) = Some (0.43 - 0.4)
  /\ avgDist (uprightHand 0.43 0.4 0.8) = Some (0.8 - 0.5)
  /\ 0.43 - 0.4 < 0.05
  /\ gestures TREE (uprightHand 0.43 0.4 0.8) = Some [FOCUS]
  /\ gestures FOCUS (uprightHand 0.43 0.4 0.95) = Some [SCATTER].
Proof.
  assert (Hd : pinchDistance (uprightHand 0.43 0.4 0.8) = Some (0.43 - 0.4))
    by (apply pinchDistance_upright; lra).
  assert (Ha : avgDist (uprightHand 0.43 0.4 0.8) = Some (0.8 - 0.5))
    by (apply avgDist_upright; lra).
  assert (Hp : 0.43 - 0.4 < 0.05) by lra.
  split; [assumption |]. split; [assumption |]. split; [assumption |].
  split.
  - destruct (pinch_outside_fist TREE _ _ _ Hd Ha Hp) as (calls & Hcalls & Hdead & _).
    rewrite Hcalls. f_equal. apply Hdead. lra.
  - assert (Hd' : pinchDistance (uprightHand 0.43 0.4 0.95) = Some (0.43 - 0.4))
      by (apply pinchDistance_upright; lra).
    assert (Ha' : avgDist (uprightHand 0.43 0.4 0.95) = Some (0.95 - 0.5))
      by (apply avgDist_upright; lra).
    destruct (pinch_outside_fist FOCUS _ _ _ Hd' Ha' Hp)
      as (calls & Hcalls & _ & Hopen).
    rewrite Hcalls. f_equal. apply Hopen. lra.
Defined.

(** X2.  A frame never calls [setMode] with the mode it read, never calls it
    twice with the same mode, and calls it at most twice. *)
Theorem gestures_calls (currentMode : AppMode) (lm : list Landmark)
    (calls : list AppMode) :
  gestures currentMode lm = Some calls ->
  (List.length calls <= 2)%nat
  /\ Forall (fun m => m <> currentMode) calls
  /\ NoDup calls.
Proof.
  unfold gestures. intros H.
  destruct (pinchDistance lm) as [d |]; simpl in H; [| discriminate].
  destruct (avgDist lm) as [a |]; simpl in H; [| discriminate].
  injection H as <-. unfold classify, switchTo.
  destruct (ltb d 0.05), (ltb a 0.25), (gtb a 0.4), currentMode; simpl;
    repeat split; try lia;
    repeat (constructor; try discriminate; simpl; try tauto);
    intros [H | H]; try discriminate; contradiction.
Qed.

Lemma gestures_calls_witness :
  gestures SCATTER pinchedFist = Some [FOCUS; TREE]
  /\ (List.length [FOCUS; TREE] <= 2)%nat
  /\ Forall (fun m => m <> SCATTER) [FOCUS; TREE]
  /\ NoDup [FOCUS; TREE].
Proof.
  assert (Hg : gestures SCATTER pinchedFist = Some [FOCUS; TREE]).
  { rewrite (gestures_classify SCATTER pinchedFist (0.43 - 0.4) (0.6 - 0.5)).
    - unfold classify.
      rewrite (proj2 (ltb_lt _ _)) by lra. rewrite (proj2 (ltb_lt _ _)) by lra.
      reflexivity.
    - apply pinchDistance_upright; lra.
    - apply avgDist_upright; lra. }
  split; [assumption |].
  apply (gestures_calls SCATTER pinchedFist [FOCUS; TREE] Hg).
Defined.

Lemma vec_none (lm : list Landmark) (i : nat) :
  vec lm i = None <-> (List.length lm <= i)%nat.
Proof.
  unfold vec. rewrite <- nth_error_None.
  destruct (nth_error lm i); simpl; split; intros H; congruence.
Qed.

Lemma vec_some (lm : list Landmark) (i : nat) :
  (i < List.length lm)%nat -> exists v, vec lm i = Some v.
Proof.
  intros H. destruct (vec lm i) as [v |] eqn:Hv; [eauto |].
  apply vec_none in Hv. lia.
Qed.

Lemma gestures_some (currentMode : AppMode) (lm : list Landmark) :
  (21 <= List.length lm)%nat ->
  exists d a,
    pinchDistance lm = Some d /\ avgDist lm = Some a
    /\ gestures currentMode lm = Some (classify currentMode d a).
Proof.
  intros H.
  destruct (vec_some lm 4) as (thumb & H4); [lia |].
  destruct (vec_some lm 8) as (index & H8); [lia |].
  destruct (vec_some lm 0) as (wrist & H0); [lia |].
  destruct (vec_some lm 12) as (t12 & H12); [lia |].
  destruct (vec_some lm 16) as (t16 & H16); [lia |].
  destruct (vec_some lm 20) as (t20 & H20); [lia |].
  assert (Hd : exists d, pinchDistance lm = Some d).
  { unfold pinchDistance. rewrite H4, H8. simpl. eauto. }
  assert (Ha : exists a, avgDist lm = Some a).
  { unfold avgDist. rewrite H0, H12, H16, H20. simpl. eauto. }
  destruct Hd as (d & Hd), Ha as (a & Ha).
  exists d, a. repeat split; try assumption.
  apply gestures_classify; assumption.
Qed.

Lemma gestures_short (currentMode : AppMode) (lm : list Landmark) :
  (List.length lm < 21)%nat -> gestures currentMode lm = None.
Proof.
  intros H. unfold gestures.
  destruct (pinchDistance lm) as [d |]; simpl; [| reflexivity].
  assert (Ha : avgDist lm = None).
  { unfold avgDist.
    destruct (vec lm 0); simpl; [| reflexivity].
    destruct (vec lm 12); simpl; [| reflexivity].
    destruct (vec lm 16); simpl; [| reflexivity].
    rewrite (proj2 (vec_none lm 20)) by lia. reflexivity. }
  rewrite Ha. reflexivity.
Qed.

(** X3.  The gesture code reads the landmarks up to index 20 without
    checking that they are there: with fewer than 21 landmarks the frame
    throws and the loop ends, before any call to [setMode]; with 21 or
    more the gesture code runs. *)
Theorem hand_needs_21_landmarks (random : nat -> R) (time : R)
    (lm : list Landmark) (w : World) :
  ((List.length lm < 21)%nat ->
     gestures (mode w) lm = None
     /\ animate random time (Some lm) w = None
     /\ forall rest, run random ((time, Some lm) :: rest) w = None)
  /\ ((21 <= List.length lm)%nat ->
      exists calls, gestures (mode w) lm = Some calls).
Proof.
  split.
  - intros H.
    assert (Hg : gestures (mode w) lm = None) by (apply gestures_short, H).
    assert (Ha : animate random time (Some lm) w = None).
    { unfold animate. destruct (nth_error lm 9); simpl; [| reflexivity].
      rewrite Hg. reflexivity. }
    split; [assumption |]. split; [assumption |].
    intros rest. simpl. rewrite Ha. reflexivity.
  - intros H. destruct (gestures_some (mode w) lm H) as (d & a & _ & _ & Hg).
    eauto.
Qed.

Lemma hand_needs_21_landmarks_witness :
  (List.length (firstn 20 fistHand) < 21)%nat
  /\ animate steadyRandom 16 (Some (firstn 20 fistHand)) scatterWorld = None.
Proof.
  split; [simpl; lia |].
  apply (hand_needs_21_landmarks steadyRandom 16 (firstn 20 fistHand) scatterWorld).
  simpl; lia.
Defined.

Lemma selectFocus_total (random : nat -> R) (currentMode : AppMode)
    (target : option nat) (s : Scene) :
  0 <= random (draws s) < 1 ->
  exists target' s', selectFocus random currentMode target s = Some (target', s').
Proof.
  intros Hr.
  destruct (AppMode_eqb currentMode FOCUS) eqn:Hm.
  - assert (currentMode = FOCUS) by (destruct currentMode; (discriminate || reflexivity)).
    subst. destruct target as [id |].
    + rewrite selectFocus_keeps. eauto.
    + destruct (filter isPhoto (particles s)) as [| p0 photos] eqn:Hf.
      * rewrite (selectFocus_no_photo random s Hf). eauto.
      * destruct (selectFocus_picks_photo random s) as (p & _ & _ & Hsel).
        -- rewrite Hf. discriminate.
        -- assumption.
        -- rewrite Hsel. eauto.
  - rewrite selectFocus_not_focus; [eauto |].
    intros ->. discriminate.
Qed.

Lemma animate_total (random : nat -> R) (time : R)
    (hand : option (list Landmark)) (w : World) :
  (forall lm, hand = Some lm -> (21 <= List.length lm)%nat) ->
  0 <= random (draws (scene w)) < 1 ->
  exists w', animate random time hand w = Some w'.
Proof.
  intros Hhand Hr.
  destruct (selectFocus_total random (mode w) (focusTarget w) (scene w) Hr)
    as (target & s & Hsel).
  destruct hand as [lm |].
  - specialize (Hhand lm eq_refl).
    destruct (gestures_some (mode w) lm Hhand) as (d & a & _ & _ & Hg).
    destruct (nth_error lm 9) as [palm |] eqn:Hpalm.
    + destruct (animate_hand random time lm w palm _ target s Hpalm Hg Hsel)
        as (w' & Hrun & _).
      eauto.
    + apply nth_error_None in Hpalm. lia.
  - destruct (animate_no_hand random time w target s Hsel) as (w' & Hrun & _).
    eauto.
Qed.

(** X4.  With no hand, or with a hand of at least 21 landmarks, and a draw
    of [Math.random] in [0, 1), a frame runs to its end in every mode
    and on every store, the empty one too; so does a loop of such
    frames when every draw is in [0, 1). *)
Theorem animate_runs (random : nat -> R) :
  (forall time hand w,
     (forall lm, hand = Some lm -> (21 <= List.length lm)%nat) ->
     0 <= random (draws (scene w)) < 1 ->
     exists w', animate random time hand w = Some w')
  /\ (forall frames w,
        (forall k, 0 <= random k < 1) ->
        Forall (fun frame =>
                  forall lm, snd frame = Some lm -> (21 <= List.length lm)%nat)
               frames ->
        exists w', run random frames w = Some w').
Proof.
  split; [apply animate_total |].
  intros frames w Hr Hframes. revert w.
  induction Hframes as [| [time hand] frames Hframe _ IH]; intros w.
  - exists w. reflexivity.
  - destruct (animate_total random time hand w Hframe (Hr _)) as (w1 & H1).
    destruct (IH w1) as (w' & Hrun).
    exists w'. simpl. rewrite H1. assumption.
Qed.

Lemma animate_runs_witness :
  exists w', animate steadyRandom 16 (Some fistHand) photoWorld = Some w'.
Proof.
  destruct (animate_runs steadyRandom) as [Hframe _].
  apply (Hframe 16 (Some fistHand) photoWorld).
  - intros lm H. injection H as <-. simpl. lia.
  - simpl. unfold steadyRandom. lra.
Defined.

(** ** The mode over several frames *)

Lemma classify_pinched_fist (currentMode : AppMode) (d a : R) :
  d < 0.05 -> a < 0.25 ->
  setModes currentMode (classify currentMode d a)
  = match currentMode with TREE => FOCUS | SCATTER | FOCUS => TREE end.
Proof.
  intros Hd Ha. unfold classify.
  rewrite (proj2 (ltb_lt d 0.05) Hd), (proj2 (ltb_lt a 0.25) Ha).
  destruct currentMode; reflexivity.
Qed.

Lemma animate_mode_classify (random : nat -> R) (time : R) (lm : list Landmark)
    (d a : R) (w w' : World) :
  pinchDistance lm = Some d -> avgDist lm = Some a ->
  animate random time (Some lm) w = Some w' ->
  mode w' = setModes (mode w) (classify (mode w) d a).
Proof.
  intros Hd Ha Hrun.
  destruct (animate_mode _ _ _ _ _ Hrun) as (calls & Hg & Hm).
  rewrite (gestures_classify (mode w) lm d a Hd Ha) in Hg.
  injection Hg as <-. assumption.
Qed.

(** X5.  A hand held pinched with the other fingers closed never lets the
    mode settle: every frame changes it, from TREE to FOCUS and from
    FOCUS or SCATTER to TREE, so that from TREE or FOCUS the mode is back
    after every second frame. *)
Theorem held_pinched_fist_flips (random : nat -> R) (lm : list Landmark) (d a : R) :
  pinchDistance lm = Some d -> avgDist lm = Some a ->
  d < 0.05 -> a < 0.25 ->
  (forall time w w',
     animate random time (Some lm) w = Some w' ->
     mode w' = match mode w with TREE => FOCUS | SCATTER | FOCUS => TREE end
     /\ mode w' <> mode w)
  /\ (forall times w w',
        run random (heldHand lm times) w = Some w' ->
        mode w <> SCATTER ->
        mode w'
        = if Nat.even (List.length times) then mode w
          else match mode w with TREE => FOCUS | SCATTER | FOCUS => TREE end).
Proof.
  intros Hd Ha Hpinch Hfist.
  assert (Hstep : forall time w w',
             animate random time (Some lm) w = Some w' ->
             mode w' = match mode w with
                       | TREE => FOCUS
                       | SCATTER | FOCUS => TREE
                       end).
  { intros time w w' Hrun.
    rewrite (animate_mode_classify _ _ _ _ _ _ _ Hd Ha Hrun).
    apply classify_pinched_fist; assumption. }
  split.
  - intros time w w' Hrun. rewrite (Hstep _ _ _ Hrun).
    split; [reflexivity |]. destruct (mode w); discriminate.
  - intros frameTimes.
    induction frameTimes as [| time frameTimes IH]; intros w w' Hrun Hm.
    + simpl in Hrun. injection Hrun as <-. reflexivity.
    + simpl in Hrun.
      destruct (animate random time (Some lm) w) as [w1 |] eqn:H1;
        simpl in Hrun; [| discriminate].
      pose proof (Hstep _ _ _ H1) as Hm1.
      rewrite (IH w1 w' Hrun) by (rewrite Hm1; destruct (mode w); discriminate).
      change (List.length (time :: frameTimes))
        with (S (List.length frameTimes)).
      rewrite Nat.even_succ, <- Nat.negb_even, Hm1.
      destruct (Nat.even (List.length frameTimes)), (mode w);
        try reflexivity; contradiction.
Qed.

Lemma held_pinched_fist_flips_witness :
  exists w',
    run steadyRandom (heldHand pinchedFist [16; 32]) photoWorld = Some w'
    /\ mode w' = FOCUS.
Proof.
  assert (Hd : pinchDistance pinchedFist = Some (0.43 - 0.4))
    by (apply pinchDistance_upright; lra).
  assert (Ha : avgDist pinchedFist = Some (0.6 - 0.5))
    by (apply avgDist_upright; lra).
  destruct (held_pinched_fist_flips steadyRandom pinchedFist _ _ Hd Ha)
    as [_ Hrun]; try lra.
  destruct (animate_total steadyRandom 16 (Some pinchedFist) photoWorld)
    as (w1 & H1).
  { intros lm H. injection H as <-. simpl. lia. }
  { simpl. unfold steadyRandom. lra. }
  destruct (animate_total steadyRandom 32 (Some pinchedFist) w1) as (w2 & H2).
  { intros lm H. injection H as <-. simpl. lia. }
  { unfold steadyRandom. lra. }
  assert (Hr : run steadyRandom (heldHand pinchedFist [16; 32]) photoWorld = Some w2).
  { simpl. rewrite H1. simpl. rewrite H2. reflexivity. }
  exists w2. split; [assumption |].
  apply (Hrun [16; 32] photoWorld w2 Hr). simpl. discriminate.
Defined.

(** X6.  The frames that keep the mode: no hand, or a hand that is not
    pinched and whose tips are from 0.25 to 0.4 away from the wrist. *)
Theorem mode_sustained (random : nat -> R)
    (frames : list (R * option (list Landmark))) (w w' : World) :
  Forall (fun frame =>
            forall lm, snd frame = Some lm ->
              exists d a,
                pinchDistance lm = Some d /\ avgDist lm = Some a
                /\ ~ d < 0.05 /\ 0.25 <= a <= 0.4) frames ->
  run random frames w = Some w' ->
  mode w' = mode w.
Proof.
  intros Hframes. revert w.
  induction Hframes as [| [time hand] frames Hframe _ IH]; intros w Hrun.
  - simpl in Hrun. injection Hrun as <-. reflexivity.
  - simpl in Hrun.
    destruct (animate random time hand w) as [w1 |] eqn:H1;
      simpl in Hrun; [| discriminate].
    rewrite (IH w1 Hrun).
    destruct hand as [lm |].
    + destruct (Hframe lm eq_refl) as (d & a & Hd & Ha & Hp & Hdead).
      rewrite (animate_mode_classify _ _ _ _ _ _ _ Hd Ha H1).
      unfold classify. rewrite (proj2 (ltb_nlt d 0.05) Hp).
      rewrite (proj2 (ltb_nlt a 0.25)) by lra.
      rewrite (proj2 (gtb_ngt a 0.4)) by lra. reflexivity.
    + apply (animate_no_hand_mode _ _ _ _ H1).
Qed.

Lemma mode_sustained_witness :
  exists w',
    run steadyRandom [(16, None); (32, Some relaxedHand)] photoWorld = Some w'
    /\ mode w' = FOCUS.
Proof.
  destruct (animate_total steadyRandom 16 None photoWorld) as (w1 & H1).
  { intros lm H. discriminate. }
  { simpl. unfold steadyRandom. lra. }
  destruct (animate_total steadyRandom 32 (Some relaxedHand) w1) as (w2 & H2).
  { intros lm H. injection H as <-. simpl. lia. }
  { unfold steadyRandom. lra. }
  assert (Hr : run steadyRandom [(16, None); (32, Some relaxedHand)] photoWorld
               = Some w2).
  { simpl. rewrite H1. simpl. rewrite H2. reflexivity. }
  exists w2. split; [assumption |].
  apply (mode_sustained steadyRandom [(16, None); (32, Some relaxedHand)]
           photoWorld w2); [| assumption].
  constructor; [intros lm H; discriminate |].
  constructor; [| constructor].
  intros lm H. injection H as <-.
  exists (0.6 - 0.3), (0.8 - 0.5).
  split; [apply pinchDistance_upright; lra |].
  split; [apply avgDist_upright; lra |]. lra.
Defined.

(** ** What the frames leave alone *)

Lemma updateFrom_length (currentMode : AppMode) (target : option nat)
    (time : R) (particleCount : nat) (ps : list ParticleData) :
  forall i,
    List.length (updateFrom currentMode target time particleCount i ps)
    = List.length ps.
Proof.
  induction ps as [| p ps IH]; intros i; simpl; [| rewrite IH]; reflexivity.
Qed.

Lemma updateFrom_nth (currentMode : AppMode) (target : option nat)
    (time : R) (particleCount : nat) (ps : list ParticleData) :
  forall i j,
    nth_error (updateFrom currentMode target time particleCount i ps) j
    = option_map (updateParticle currentMode target time particleCount (i + j))
                 (nth_error ps j).
Proof.
  induction ps as [| p ps IH]; intros i j.
  - destruct j; reflexivity.
  - destruct j as [| j]; simpl.
    + rewrite Nat.add_0_r. reflexivity.
    + rewrite IH. rewrite Nat.add_succ_r. reflexivity.
Qed.

Lemma updateFrom_fixedPart (currentMode : AppMode) (target : option nat)
    (time : R) (particleCount : nat) (ps : list ParticleData) :
  forall i,
    map fixedPart (updateFrom currentMode target time particleCount i ps)
    = map fixedPart ps.
Proof.
  induction ps as [| p ps IH]; intros i; simpl; [reflexivity |].
  rewrite IH. f_equal.
  unfold updateParticle, fixedPart.
  destruct currentMode; simpl; try reflexivity.
  destruct (isFocus p target); reflexivity.
Qed.

(** The focus step reads the store and draws at most one number. *)
Lemma selectFocus_scene (random : nat -> R) (currentMode : AppMode)
    (target target' : option nat) (s s' : Scene) :
  selectFocus random currentMode target s = Some (target', s') ->
  particles s' = particles s /\ children s' = children s
  /\ (draws s' = draws s \/ draws s' = S (draws s)).
Proof.
  unfold selectFocus. intros H.
  destruct currentMode, target as [id |]; simpl in H;
    try (injection H as <- <-; auto).
  destruct (0 <? List.length (filter isPhoto (particles s)))%nat; simpl in H.
  - destruct (at_index (filter isPhoto (particles s))
                (floor (random (draws s)
                        * INR (List.length (filter isPhoto (particles s))))));
      simpl in H; [| discriminate].
    injection H as <- <-. simpl. auto.
  - injection H as <- <-. auto.
Qed.

(** What a frame that ends makes of the store. *)
Lemma animate_particles (random : nat -> R) (time : R)
    (hand : option (list Landmark)) (w w' : World) :
  animate random time hand w = Some w' ->
  particles (scene w')
  = updateFrom (mode w) (focusTarget w') time
               (List.length (particles (scene w))) 0 (particles (scene w))
  /\ children (scene w') = children (scene w)
  /\ lastTime w' = time.
Proof.
  unfold animate. intros H.
  destruct hand as [lm |].
  - destruct (nth_error lm 9) as [palm |]; simpl in H; [| discriminate].
    destruct (gestures (mode w) lm) as [calls |]; simpl in H; [| discriminate].
    destruct (selectFocus random (mode w) (focusTarget w) (scene w))
      as [[target s] |] eqn:Hsel; simpl in H; [| discriminate].
    destruct (selectFocus_scene _ _ _ _ _ _ Hsel) as (Hps & Hch & _).
    injection H as <-. simpl. rewrite Hps, Hch. repeat split.
  - simpl in H.
    destruct (selectFocus random (mode w) (focusTarget w) (scene w))
      as [[target s] |] eqn:Hsel; simpl in H; [| discriminate].
    destruct (selectFocus_scene _ _ _ _ _ _ Hsel) as (Hps & Hch & _).
    injection H as <-. simpl. rewrite Hps, Hch. repeat split.
Qed.

Lemma run_fixedPart (random : nat -> R)
    (frames : list (R * option (list Landmark))) (w w' : World) :
  run random frames w = Some w' ->
  map fixedPart (particles (scene w')) = map fixedPart (particles (scene w))
  /\ children (scene w') = children (scene w).
Proof.
  revert w. induction frames as [| [time hand] frames IH]; intros w Hrun.
  - simpl in Hrun. injection Hrun as <-. repeat split.
  - simpl in Hrun.
    destruct (animate random time hand w) as [w1 |] eqn:H1;
      simpl in Hrun; [| discriminate].
    destruct (IH w1 Hrun) as (Hfix & Hch).
    destruct (animate_particles _ _ _ _ _ H1) as (Hps & Hch1 & _).
    rewrite Hfix, Hch, Hch1, Hps, updateFrom_fixedPart. repeat split.
Qed.

(** X7.  However many frames run and whatever the hands show, the loop
    never adds, removes or reorders particles, and never changes the
    mesh a particle owns, its geometry and material, its velocity, its
    type or its [initialPos]; the main group keeps its meshes. *)
Theorem frames_keep_store (random : nat -> R)
    (frames : list (R * option (list Landmark))) (w w' : World) :
  run random frames w = Some w' ->
  List.length (particles (scene w')) = List.length (particles (scene w))
  /\ map fixedPart (particles (scene w')) = map fixedPart (particles (scene w))
  /\ children (scene w') = children (scene w).
Proof.
  intros Hrun. destruct (run_fixedPart random frames w w' Hrun) as (Hfix & Hch).
  split; [| split; assumption].
  rewrite <- (length_map fixedPart), Hfix. apply length_map.
Qed.

Lemma frames_keep_store_witness :
  exists w',
    run steadyRandom [(16, Some fistHand)] photoWorld = Some w'
    /\ map fixedPart (particles (scene w')) = [fixedPart photoAtOrigin].
Proof.
  destruct (animate_total steadyRandom 16 (Some fistHand) photoWorld) as (w1 & H1).
  { intros lm H. injection H as <-. simpl. lia. }
  { simpl. unfold steadyRandom. lra. }
  assert (Hr : run steadyRandom [(16, Some fistHand)] photoWorld = Some w1)
    by (simpl; rewrite H1; reflexivity).
  exists w1. split; [assumption |].
  apply (frames_keep_store steadyRandom [(16, Some fistHand)] photoWorld w1 Hr).
Defined.

(** ** Meshes and particles *)

Section Meshes.

Variable random : nat -> R.

Lemma addParticle_mesh (ty : ParticleType) (texture : option string) (s : Scene) :
  exists p,
    particles (execState (addParticle random ty texture) s) = particles s ++ [p]
    /\ children (execState (addParticle random ty texture) s)
       = children s ++ [List.length (children s)]
    /\ mesh_id (mesh p) = List.length (children s).
Proof.
  unfold addParticle, execState.
  destruct ty, texture as [tex |]; simpl;
    try (destruct (ltb (random (draws s)) 0.3); simpl;
         [| destruct (ltb (random (draws s)) 0.6); simpl]);
    eexists; repeat split.
Qed.

Lemma onTextureLoaded_mesh (url : string) (s : Scene) :
  exists p,
    particles (execState (onTextureLoaded random url) s) = particles s ++ [p]
    /\ children (execState (onTextureLoaded random url) s)
       = children s ++ [List.length (children s)]
    /\ mesh_id (mesh p) = List.length (children s)
    /\ material (mesh p) = matPhoto url.
Proof.
  unfold onTextureLoaded, execState. simpl. eexists. repeat split.
Qed.

Lemma sceneOk_push (s s' : Scene) (p : ParticleData) :
  sceneOk s ->
  particles s' = particles s ++ [p] ->
  children s' = children s ++ [List.length (children s)] ->
  mesh_id (mesh p) = List.length (children s) ->
  sceneOk s'.
Proof.
  intros [Hids Hseq] Hps Hch Hid. unfold sceneOk, meshIds in *.
  rewrite Hps, Hch, map_app, Hids. simpl. rewrite Hid. split; [reflexivity |].
  rewrite length_app. simpl. rewrite Nat.add_1_r, seq_S. simpl.
  rewrite <- Hseq. reflexivity.
Qed.

Lemma sceneOk_addParticle (ty : ParticleType) (texture : option string) (s : Scene) :
  sceneOk s -> sceneOk (execState (addParticle random ty texture) s).
Proof.
  intros H. destruct (addParticle_mesh ty texture s) as (p & Hps & Hch & Hid).
  eapply sceneOk_push; eassumption.
Qed.

Lemma sceneOk_times (ty : ParticleType) (texture : option string) (n : nat) :
  forall s,
    sceneOk s -> sceneOk (execState (times n (addParticle random ty texture)) s).
Proof.
  induction n as [| n IH]; intros s H; [exact H |].
  change (times (S n) (addParticle random ty texture))
    with (addParticle random ty texture ;;
          times n (addParticle random ty texture)).
  rewrite execState_bind. apply IH, sceneOk_addParticle, H.
Qed.

Lemma sceneOk_handleNewPhoto (loads : string -> bool)
    (newPhoto : option string) (s : Scene) :
  sceneOk s -> sceneOk (execState (handleNewPhoto random loads newPhoto) s).
Proof.
  intros H. destruct newPhoto as [[| c url] |]; try exact H.
  simpl handleNewPhoto. destruct (loads (String c url)); [| exact H].
  destruct (onTextureLoaded_mesh (String c url) s) as (p & Hps & Hch & Hid & _).
  eapply sceneOk_push; eassumption.
Qed.

Lemma meshIds_fixedPart (ps qs : list ParticleData) :
  map fixedPart ps = map fixedPart qs -> meshIds ps = meshIds qs.
Proof.
  intros H. unfold meshIds.
  assert (Hmap : forall l,
             map (fun p => mesh_id (mesh p)) l
             = map (fun t => fst (fst (fst (fst (fst t))))) (map fixedPart l)).
  { intros l. rewrite map_map. reflexivity. }
  rewrite (Hmap ps), (Hmap qs), H. reflexivity.
Qed.

(** X8.  In every scene the code builds, each particle owns a mesh of its
    own: the scene starts empty, [addParticle], the new-photo effect and
    the frames keep the meshes of the main group and the meshes of the
    particles the same list, and no mesh occurs twice in it. *)
Theorem scene_stays_ok :
  sceneOk emptyScene
  /\ sceneOk (initScene random)
  /\ (forall s, sceneOk s ->
        (forall ty texture, sceneOk (execState (addParticle random ty texture) s))
        /\ (forall loads newPhoto,
              sceneOk (execState (handleNewPhoto random loads newPhoto) s))
        /\ NoDup (meshIds (particles s))
        /\ List.length (children s) = List.length (particles s))
  /\ (forall frames w w',
        sceneOk (scene w) -> run random frames w = Some w' ->
        sceneOk (scene w')).
Proof.
  assert (Hempty : sceneOk emptyScene) by (split; reflexivity).
  split; [assumption |]. split; [| split].
  - unfold initScene, createParticles. rewrite !execState_bind.
    apply sceneOk_addParticle, sceneOk_times, sceneOk_times, Hempty.
  - intros s H. split; [| split; [| split]].
    + intros ty texture. apply sceneOk_addParticle, H.
    + intros loads newPhoto. apply sceneOk_handleNewPhoto, H.
    + destruct H as [Hids Hseq]. rewrite Hids, Hseq. apply seq_NoDup.
    + destruct H as [Hids _]. rewrite <- Hids. unfold meshIds.
      apply length_map.
  - intros frames w w' [Hids Hseq] Hrun.
    destruct (run_fixedPart random frames w w' Hrun) as (Hfix & Hch).
    split.
    + rewrite (meshIds_fixedPart _ _ Hfix), Hch. assumption.
    + rewrite Hch. assumption.
Qed.

Lemma filter_none {A : Type} (f : A -> nat) (l : list A) (n : nat) :
  ~ In n (map f l) -> filter (fun b => Nat.eqb (f b) n) l = [].
Proof.
  induction l as [| b l IH]; intros Hn; [reflexivity |].
  simpl. destruct (Nat.eqb_spec (f b) n) as [Heq | Hne].
  - exfalso. apply Hn. left. assumption.
  - apply IH. intros Hin. apply Hn. right. assumption.
Qed.

Lemma filter_unique {A : Type} (f : A -> nat) (l : list A) (a : A) :
  NoDup (map f l) -> In a l ->
  filter (fun b => Nat.eqb (f b) (f a)) l = [a].
Proof.
  induction l as [| b l IH]; intros Hnd Hin; [contradiction |].
  simpl in Hnd. inversion Hnd as [| ? ? Hnotin Hnd']; subst.
  simpl. destruct Hin as [-> | Hin].
  - rewrite Nat.eqb_refl, (filter_none f l (f a) Hnotin). reflexivity.
  - destruct (Nat.eqb_spec (f b) (f a)) as [Heq | Hne].
    + exfalso. apply Hnotin. rewrite Heq. apply in_map, Hin.
    + apply IH; assumption.
Qed.

Lemma sceneOk_NoDup (s : Scene) : sceneOk s -> NoDup (meshIds (particles s)).
Proof. intros [Hids Hseq]. rewrite Hids, Hseq. apply seq_NoDup. Qed.

(** X9.  The target the focus step selects is the mesh of exactly one
    particle of the store, and that particle is a PHOTO. *)
Theorem focus_target_unique (s s' : Scene) (id : nat) :
  sceneOk s ->
  selectFocus random FOCUS None s = Some (Some id, s') ->
  exists p,
    filter (fun q => isFocus q (Some id)) (particles s) = [p]
    /\ type p = PHOTO
    /\ mesh_id (mesh p) = id.
Proof.
  intros Hok Hsel.
  assert (Hp : exists p, In p (filter isPhoto (particles s))
                         /\ id = mesh_id (mesh p)).
  { unfold selectFocus in Hsel.
    destruct (0 <? List.length (filter isPhoto (particles s)))%nat;
      simpl in Hsel; [| discriminate].
    unfold at_index in Hsel.
    destruct (floor _ <? 0)%Z; simpl in Hsel; [discriminate |].
    destruct (nth_error (filter isPhoto (particles s)) _) as [p |] eqn:Hnth;
      simpl in Hsel; [| discriminate].
    injection Hsel as <- _. exists p. split; [| reflexivity].
    eapply nth_error_In, Hnth. }
  destruct Hp as (p & Hin & ->).
  apply filter_In in Hin. destruct Hin as [Hin Hty].
  exists p. split; [| split].
  - apply (filter_unique (fun q => mesh_id (mesh q)) (particles s) p
             (sceneOk_NoDup s Hok) Hin).
  - unfold isPhoto in Hty. destruct (type p); (discriminate || reflexivity).
  - reflexivity.
Qed.

End Meshes.

Lemma scene_stays_ok_witness :
  sceneOk emptyScene
  /\ sceneOk (execState (addParticle steadyRandom DUST None) emptyScene)
  /\ NoDup (meshIds (particles (initScene steadyRandom))).
Proof.
  destruct (scene_stays_ok steadyRandom) as (Hempty & Hinit & Hkeep & _).
  split; [assumption |]. split.
  - apply (Hkeep emptyScene Hempty).
  - apply (Hkeep (initScene steadyRandom) Hinit).
Defined.

Lemma focus_target_unique_witness :
  exists s' p,
    selectFocus steadyRandom FOCUS None (scene photoWorld)
    = Some (Some (mesh_id (mesh photoAtOrigin)), s')
    /\ filter (fun q => isFocus q (Some (mesh_id (mesh photoAtOrigin))))
              (particles (scene photoWorld)) = [p]
    /\ type p = PHOTO.
Proof.
  assert (Hok : sceneOk (scene photoWorld)) by (split; reflexivity).
  destruct (selectFocus_picks_photo steadyRandom (scene photoWorld))
    as (p & Hin & _ & Hsel).
  { simpl. discriminate. }
  { simpl. unfold steadyRandom. lra. }
  simpl in Hin. destruct Hin as [<- | []].
  destruct (focus_target_unique steadyRandom _ _ _ Hok Hsel) as (q & Hq & Hty & _).
  eexists. exists q. split; [exact Hsel |]. split; assumption.
Defined.

(** ** Motion *)

(** Blending towards [v] by [alpha] leaves the fraction [1 - alpha] of
    the distance to [v]. *)
Lemma lerp_distance (a v : Vector3) (alpha : R) :
  alpha <= 1 ->
  Vector3.distanceTo (Vector3.lerp a v alpha) v
  = (1 - alpha) * Vector3.distanceTo a v.
Proof.
  intros H. unfold Vector3.distanceTo, Vector3.distanceToSquared, Vector3.lerp.
  simpl.
  replace ((Vector3.x a + (Vector3.x v - Vector3.x a) * alpha - Vector3.x v)
           * (Vector3.x a + (Vector3.x v - Vector3.x a) * alpha - Vector3.x v)
           + (Vector3.y a + (Vector3.y v - Vector3.y a) * alpha - Vector3.y v)
             * (Vector3.y a + (Vector3.y v - Vector3.y a) * alpha - Vector3.y v)
           + (Vector3.z a + (Vector3.z v - Vector3.z a) * alpha - Vector3.z v)
             * (Vector3.z a + (Vector3.z v - Vector3.z a) * alpha - Vector3.z v))
    with (((1 - alpha) * (1 - alpha))
          * ((Vector3.x a - Vector3.x v) * (Vector3.x a - Vector3.x v)
             + (Vector3.y a - Vector3.y v) * (Vector3.y a - Vector3.y v)
             + (Vector3.z a - Vector3.z v) * (Vector3.z a - Vector3.z v)))
    by ring.
  rewrite sqrt_mult_alt by nra.
  rewrite sqrt_square by lra. reflexivity.
Qed.

Lemma update_step_tree (target : option nat) (time : R)
    (particleCount i : nat) (p : ParticleData) :
  Vector3.distanceTo
    (position (mesh (updateParticle TREE target time particleCount i p)))
    (treeTarget i particleCount)
  = 0.95 * Vector3.distanceTo (position (mesh p)) (treeTarget i particleCount).
Proof.
  unfold updateParticle. simpl. rewrite lerp_distance by lra. f_equal. lra.
Qed.

(** X10.  Each frame takes every particle a fixed fraction of the way to its
    target: the distance left is 0.95 of what it was in TREE and in
    FOCUS (to the point in front of the camera for the focus target, to
    one and a half times the anchor for the others) and 0.98 of what it
    was in SCATTER. *)
Theorem update_closes_distance (target : option nat) (time : R)
    (particleCount i : nat) (p : ParticleData) :
  let at_ (currentMode : AppMode) :=
    position (mesh (updateParticle currentMode target time particleCount i p)) in
  Vector3.distanceTo (at_ TREE) (treeTarget i particleCount)
  = 0.95 * Vector3.distanceTo (position (mesh p)) (treeTarget i particleCount)
  /\ Vector3.distanceTo (at_ SCATTER) (scatterTarget p time)
     = 0.98 * Vector3.distanceTo (position (mesh p)) (scatterTarget p time)
  /\ (isFocus p target = true ->
      Vector3.distanceTo (at_ FOCUS) (Vector3.mk 0 0 35)
      = 0.95 * Vector3.distanceTo (position (mesh p)) (Vector3.mk 0 0 35))
  /\ (isFocus p target = false ->
      Vector3.distanceTo (at_ FOCUS) (Vector3.multiplyScalar (initialPos p) 1.5)
      = 0.95 * Vector3.distanceTo (position (mesh p))
                 (Vector3.multiplyScalar (initialPos p) 1.5)).
Proof.
  cbv zeta. unfold updateParticle. repeat split.
  - simpl. rewrite lerp_distance by lra. f_equal. lra.
  - simpl. rewrite lerp_distance by lra. f_equal. lra.
  - intros H. rewrite H. simpl. rewrite lerp_distance by lra. f_equal. lra.
  - intros H. rewrite H. simpl. rewrite lerp_distance by lra. f_equal. lra.
Qed.

Lemma update_closes_distance_witness :
  isFocus photoAtOrigin (Some 0%nat) = true
  /\ Vector3.distanceTo
       (position (mesh (updateParticle FOCUS (Some 0%nat) 16 1 0 photoAtOrigin)))
       (Vector3.mk 0 0 35)
     = 0.95 * Vector3.distanceTo (position (mesh photoAtOrigin)) (Vector3.mk 0 0 35).
Proof.
  split; [reflexivity |].
  apply (update_closes_distance (Some 0%nat) 16 1 0 photoAtOrigin). reflexivity.
Defined.

Lemma animate_tree_no_hand (random : nat -> R) (time : R) (w : World) :
  mode w = TREE ->
  exists w',
    animate random time None w = Some w'
    /\ mode w' = TREE
    /\ particles (scene w')
       = updateFrom TREE None time (List.length (particles (scene w))) 0
                    (particles (scene w)).
Proof.
  intros Hm.
  destruct (animate_no_hand random time w None (scene w)) as (w' & Hrun & Hft & Hmode).
  { apply selectFocus_not_focus. rewrite Hm. discriminate. }
  exists w'. split; [assumption |]. split; [congruence |].
  destruct (animate_particles _ _ _ _ _ Hrun) as (Hps & _).
  rewrite Hps, Hft, Hm. reflexivity.
Qed.

(** X11.  In TREE mode with no hand in view the loop never throws, the mode
    stays TREE, and after [k] frames every particle is at [0.95 ^ k]
    of its first distance from its place on the tree: the particles
    converge to the spiral. *)
Theorem tree_frames_converge (random : nat -> R) (frameTimes : list R) (w : World) :
  mode w = TREE ->
  exists w',
    run random (noHand frameTimes) w = Some w'
    /\ mode w' = TREE
    /\ forall i p,
         nth_error (particles (scene w)) i = Some p ->
         exists p',
           nth_error (particles (scene w')) i = Some p'
           /\ Vector3.distanceTo (position (mesh p'))
                (treeTarget i (List.length (particles (scene w))))
              = 0.95 ^ List.length frameTimes
                * Vector3.distanceTo (position (mesh p))
                    (treeTarget i (List.length (particles (scene w)))).
Proof.
  revert w. induction frameTimes as [| time frameTimes IH]; intros w Hm.
  - exists w. split; [reflexivity |]. split; [assumption |].
    intros i p Hp. exists p. split; [assumption |]. simpl. lra.
  - destruct (animate_tree_no_hand random time w Hm) as (w1 & H1 & Hm1 & Hps1).
    destruct (IH w1 Hm1) as (w' & Hrun & Hm' & Hconv).
    exists w'. split; [| split; [assumption |]].
    + simpl. rewrite H1. simpl. assumption.
    + intros i p Hp.
      assert (Hlen : List.length (particles (scene w1))
                     = List.length (particles (scene w)))
        by (rewrite Hps1; apply updateFrom_length).
      destruct (Hconv i (updateParticle TREE None time
                           (List.length (particles (scene w))) i p))
        as (p' & Hp' & Hdist).
      { rewrite Hps1, updateFrom_nth, Hp. reflexivity. }
      exists p'. split; [assumption |].
      rewrite Hlen in Hdist. rewrite Hdist.
      rewrite (update_step_tree None time (List.length (particles (scene w))) i p).
      simpl. ring.
Qed.

Lemma tree_frames_converge_witness :
  exists w',
    run steadyRandom (noHand [16; 32; 48]) treeWorld = Some w' /\ mode w' = TREE.
Proof.
  destruct (tree_frames_converge steadyRandom [16; 32; 48] treeWorld)
    as (w' & Hrun & Hm & _).
  - reflexivity.
  - exists w'. split; assumption.
Defined.

(** X12.  The scale of a particle that is not the focus target goes to 1:
    a frame leaves 0.9 of its distance from (1, 1, 1) in TREE and
    SCATTER and 0.855 in FOCUS, and a particle at scale 1 stays there.
    The focus target in FOCUS goes to 4.5 instead, by 0.05 a frame, and
    is not pulled back to 1. *)
Theorem scale_settles (currentMode : AppMode) (target : option nat) (time : R)
    (particleCount i : nat) (p : ParticleData) :
  let scale' :=
    scale (mesh (updateParticle currentMode target time particleCount i p)) in
  (currentMode <> FOCUS ->
     Vector3.distanceTo scale' ones = 0.9 * Vector3.distanceTo (scale (mesh p)) ones)
  /\ (currentMode = FOCUS -> isFocus p target = false ->
      Vector3.distanceTo scale' ones
      = 0.855 * Vector3.distanceTo (scale (mesh p)) ones)
  /\ (currentMode = FOCUS -> isFocus p target = true ->
      Vector3.distanceTo scale' (Vector3.mk 4.5 4.5 4.5)
      = 0.95 * Vector3.distanceTo (scale (mesh p)) (Vector3.mk 4.5 4.5 4.5))
  /\ (scale (mesh p) = ones ->
      currentMode <> FOCUS \/ isFocus p target = false ->
      scale' = ones).
Proof.
  cbv zeta. unfold updateParticle. repeat split.
  - intros Hm. destruct currentMode; try contradiction; simpl;
      rewrite lerp_distance by lra; f_equal; lra.
  - intros -> Hf. rewrite Hf. simpl.
    rewrite !lerp_distance by lra. lra.
  - intros -> Hf. rewrite Hf. simpl.
    rewrite lerp_distance by lra. f_equal. lra.
  - intros Hs Hcase.
    assert (Hfix : forall alpha, Vector3.lerp ones ones alpha = ones).
    { intros alpha. unfold Vector3.lerp, ones. simpl. f_equal; ring. }
    destruct currentMode; simpl; rewrite Hs; try apply Hfix.
    destruct Hcase as [Hm | Hf]; [contradiction |].
    rewrite Hf. simpl. rewrite !Hfix. reflexivity.
Qed.

Lemma scale_settles_witness :
  scale (mesh (updateParticle SCATTER None 16 1 0 photoAtOrigin)) = ones.
Proof.
  apply (scale_settles SCATTER None 16 1 0 photoAtOrigin).
  - reflexivity.
  - left. discriminate.
Defined.

(** X13.  The TREE targets lie on a cone around the vertical axis: the
    height runs from -20 up to, and not reaching, 20 and grows with the
    index, and the distance from the axis is 0.375 times what is left up
    to height 20. *)
Theorem tree_targets_on_cone (particleCount i : nat) :
  (i < particleCount)%nat ->
  let p := treeTarget i particleCount in
  -20 <= Vector3.y p < 20
  /\ sqrt (Vector3.x p * Vector3.x p + Vector3.z p * Vector3.z p)
     = 0.375 * (20 - Vector3.y p)
  /\ (i = 0%nat -> Vector3.y p = -20)
  /\ (forall j, (i < j)%nat ->
        Vector3.y p < Vector3.y (treeTarget j particleCount)).
Proof.
  intros Hi.
  assert (Hn : 0 < INR particleCount) by (apply lt_0_INR; lia).
  assert (Hdiv : forall a b, a < b -> a / INR particleCount < b / INR particleCount).
  { intros a b Hab. unfold Rdiv. apply Rmult_lt_compat_r; [| assumption].
    apply Rinv_0_lt_compat, Hn. }
  assert (Ht0 : 0 <= INR i / INR particleCount).
  { unfold Rdiv. apply Rmult_le_pos; [apply pos_INR |].
    apply Rlt_le, Rinv_0_lt_compat, Hn. }
  assert (Ht1 : INR i / INR particleCount < 1).
  { replace 1 with (INR particleCount / INR particleCount) by (field; lra).
    apply Hdiv, lt_INR, Hi. }
  cbv zeta. split; [| split; [| split]].
  - simpl. lra.
  - rewrite treeTarget_radius by lia. unfold treeRadius. simpl. lra.
  - intros ->. simpl. unfold Rdiv. rewrite Rmult_0_l. lra.
  - intros j Hj. simpl.
    assert (INR i / INR particleCount < INR j / INR particleCount)
      by (apply Hdiv, lt_INR, Hj).
    lra.
Qed.

Lemma tree_targets_on_cone_witness :
  (1000 < 4001)%nat /\ -20 <= Vector3.y (treeTarget 1000 4001) < 20.
Proof.
  split; [lia |].
  apply (tree_targets_on_cone 4001 1000). lia.
Defined.

Lemma clampShell_inside (v : Vector3) :
  8 <= Vector3.length v <= 20 -> clampShell v = v.
Proof.
  intros H. unfold clampShell.
  rewrite (proj2 (ltb_nlt (Vector3.length v) 8)) by lra.
  rewrite (proj2 (gtb_ngt (Vector3.length v) 20)) by lra. reflexivity.
Qed.

Lemma setLength_scales (v : Vector3) (l : R) :
  v <> Vector3.zero ->
  Vector3.setLength v l = Vector3.multiplyScalar v (l / Vector3.length v).
Proof.
  intros Hv.
  assert (Hn : Vector3.length v <> 0)
    by (intros H; apply Hv, Vector3Facts.length_eq_0, H).
  unfold Vector3.setLength, Vector3.normalize, Vector3.divideScalar,
    Vector3.normalizeDivisor.
  rewrite orElse_nonzero by assumption.
  unfold Vector3.multiplyScalar. simpl. f_equal; field; assumption.
Qed.

(** X14.  The clamp keeps the direction of the target: its result is the
    target times a positive number.  It leaves a target whose length is
    from 8 to 20 as it is, and clamping twice is clamping once. *)
Theorem clampShell_radial (v : Vector3) :
  (exists k, 0 < k /\ clampShell v = Vector3.multiplyScalar v k)
  /\ (8 <= Vector3.length v <= 20 -> clampShell v = v)
  /\ clampShell (clampShell v) = clampShell v.
Proof.
  assert (Hone : forall u, Vector3.multiplyScalar u 1 = u).
  { intros [a b c]. unfold Vector3.multiplyScalar. simpl. f_equal; ring. }
  split; [| split].
  - destruct (Req_dec_T (Vector3.length v) 0) as [H0 | Hn].
    + apply Vector3Facts.length_eq_0 in H0. subst.
      exists 1. split; [lra |]. rewrite clampShell_zero, Hone. reflexivity.
    + assert (Hv : v <> Vector3.zero).
      { intros ->. apply Hn, Vector3Facts.length_zero. }
      assert (Hpos : 0 < Vector3.length v)
        by (pose proof (Vector3Facts.length_nonneg v); lra).
      unfold clampShell.
      destruct (ltb (Vector3.length v) 8) eqn:Hlow.
      * rewrite Vector3Facts.length_setLength by (assumption || lra).
        rewrite (proj2 (gtb_ngt 8 20)) by lra.
        exists (8 / Vector3.length v). split.
        -- apply Rdiv_lt_0_compat; lra.
        -- apply setLength_scales, Hv.
      * destruct (gtb (Vector3.length v) 20) eqn:Hhigh.
        -- exists (20 / Vector3.length v). split.
           ++ apply Rdiv_lt_0_compat; lra.
           ++ apply setLength_scales, Hv.
        -- exists 1. split; [lra | symmetry; apply Hone].
  - apply clampShell_inside.
  - destruct (Req_dec_T (Vector3.length v) 0) as [H0 | Hn].
    + apply Vector3Facts.length_eq_0 in H0. subst.
      rewrite !clampShell_zero. reflexivity.
    + apply clampShell_inside, clampShell_in_shell.
      intros ->. apply Hn, Vector3Facts.length_zero.
Qed.

Lemma clampShell_radial_witness :
  8 <= Vector3.length (Vector3.mk 0 10 0) <= 20
  /\ clampShell (Vector3.mk 0 10 0) = Vector3.mk 0 10 0.
Proof.
  assert (H : Vector3.length (Vector3.mk 0 10 0) = 10).
  { unfold Vector3.length. simpl.
    replace (0 * 0 + 10 * 10 + 0 * 0) with (10 * 10) by ring.
    apply sqrt_square. lra. }
  split; [rewrite H; lra |].
  apply (clampShell_radial (Vector3.mk 0 10 0)). rewrite H. lra.
Defined.

(** ** Where particles start and how far they drift *)

Section Bounds.

Variable random : nat -> R.
Hypothesis random_range : forall k, 0 <= random k < 1.

Lemma centred_draw (k : nat) (c : R) :
  0 <= c -> Rabs ((random k - 0.5) * c) <= 0.5 * c.
Proof.
  intros Hc. destruct (random_range k) as [H0 H1].
  apply Rabs_le. split; nra.
Qed.

Lemma addParticle_draws (ty : ParticleType) (texture : option string) (s : Scene) :
  exists p k j,
    particles (execState (addParticle random ty texture) s) = particles s ++ [p]
    /\ type p = ty
    /\ initialPos p
       = Vector3.mk ((random k - 0.5) * 50) ((random (S k) - 0.5) * 50)
                    ((random (S (S k)) - 0.5) * 50)
    /\ velocity p
       = Vector3.multiplyScalar
           (Vector3.mk (random j - 0.5) (random (S j) - 0.5)
                       (random (S (S j)) - 0.5)) 0.05.
Proof.
  unfold addParticle, execState.
  destruct ty, texture as [tex |]; simpl;
    try (destruct (ltb (random (draws s)) 0.3); simpl;
         [| destruct (ltb (random (draws s)) 0.6); simpl]);
    eexists; eexists; eexists; repeat split.
Qed.

Lemma onTextureLoaded_draws (url : string) (s : Scene) :
  exists p,
    particles (execState (onTextureLoaded random url) s) = particles s ++ [p]
    /\ initialPos p = Vector3.zero
    /\ velocity p
       = Vector3.multiplyScalar
           (Vector3.mk (random (draws s) - 0.5) (random (S (draws s)) - 0.5)
                       (random (S (S (draws s))) - 0.5)) 0.05.
Proof.
  unfold onTextureLoaded, execState. simpl. eexists. repeat split.
Qed.

Lemma velocity_box (a b c : nat) :
  withinBox 0.025
    (Vector3.multiplyScalar
       (Vector3.mk (random a - 0.5) (random b - 0.5) (random c - 0.5)) 0.05).
Proof.
  unfold withinBox, Vector3.multiplyScalar. simpl.
  pose proof (centred_draw a 0.05). pose proof (centred_draw b 0.05).
  pose proof (centred_draw c 0.05). repeat split; lra.
Qed.

Lemma drift_box (p : ParticleData) (time : R) :
  withinBox 0.025 (velocity p) ->
  Rabs (Vector3.x (scatterDrift p time) - Vector3.x (initialPos p)) <= 0.5
  /\ Rabs (Vector3.y (scatterDrift p time) - Vector3.y (initialPos p)) <= 0.5
  /\ Rabs (Vector3.z (scatterDrift p time) - Vector3.z (initialPos p)) <= 0.5.
Proof.
  intros (Hx & Hy & Hz).
  assert (Hs : Rabs (sin (time * 0.001) * 20) <= 20).
  { pose proof (SIN_bound (time * 0.001)) as [Hl Hu].
    apply Rabs_le. split; lra. }
  assert (Hprod : forall v, Rabs v <= 0.025 ->
                            Rabs (v * (sin (time * 0.001) * 20)) <= 0.5).
  { intros v Hv. rewrite Rabs_mult.
    pose proof (Rabs_pos v). pose proof (Rabs_pos (sin (time * 0.001) * 20)).
    nra. }
  unfold scatterDrift, Vector3.addScaledVector. simpl.
  repeat split.
  - replace (Vector3.x (initialPos p)
             + Vector3.x (velocity p) * (sin (time * 0.001) * 20)
             - Vector3.x (initialPos p))
      with (Vector3.x (velocity p) * (sin (time * 0.001) * 20)) by ring.
    apply Hprod, Hx.
  - replace (Vector3.y (initialPos p)
             + Vector3.y (velocity p) * (sin (time * 0.001) * 20)
             - Vector3.y (initialPos p))
      with (Vector3.y (velocity p) * (sin (time * 0.001) * 20)) by ring.
    apply Hprod, Hy.
  - replace (Vector3.z (initialPos p)
             + Vector3.z (velocity p) * (sin (time * 0.001) * 20)
             - Vector3.z (initialPos p))
      with (Vector3.z (velocity p) * (sin (time * 0.001) * 20)) by ring.
    apply Hprod, Hz.
Qed.

(** X15.  When [Math.random] answers in [0, 1), a particle made by
    [addParticle] starts within 25 of the origin on each axis, and a
    particle made there or by the new-photo effect has a velocity within
    0.025 on each axis; in SCATTER its target before the clamp is then
    never more than 0.5 from its [initialPos] on any axis. *)
Theorem particles_start_in_box (s : Scene) :
  (forall ty texture,
     exists p,
       particles (execState (addParticle random ty texture) s) = particles s ++ [p]
       /\ withinBox 25 (initialPos p)
       /\ withinBox 0.025 (velocity p)
       /\ forall time,
            Rabs (Vector3.x (scatterDrift p time) - Vector3.x (initialPos p)) <= 0.5
            /\ Rabs (Vector3.y (scatterDrift p time) - Vector3.y (initialPos p)) <= 0.5
            /\ Rabs (Vector3.z (scatterDrift p time) - Vector3.z (initialPos p)) <= 0.5)
  /\ (forall url,
        exists p,
          particles (execState (onTextureLoaded random url) s) = particles s ++ [p]
          /\ withinBox 0.025 (velocity p)
          /\ forall time, withinBox 0.5 (scatterDrift p time)).
Proof.
  split.
  - intros ty texture.
    destruct (addParticle_draws ty texture s) as (p & k & j & Hp & _ & Hpos & Hvel).
    exists p. split; [assumption |].
    assert (Hv : withinBox 0.025 (velocity p)) by (rewrite Hvel; apply velocity_box).
    split; [| split; [assumption |]].
    + rewrite Hpos. unfold withinBox. simpl.
      pose proof (centred_draw k 50). pose proof (centred_draw (S k) 50).
      pose proof (centred_draw (S (S k)) 50). repeat split; lra.
    + intros time. apply drift_box, Hv.
  - intros url.
    destruct (onTextureLoaded_draws url s) as (p & Hp & Hpos & Hvel).
    exists p. split; [assumption |].
    assert (Hv : withinBox 0.025 (velocity p)) by (rewrite Hvel; apply velocity_box).
    split; [assumption |].
    intros time. destruct (drift_box p time Hv) as (Hx & Hy & Hz).
    rewrite Hpos in Hx, Hy, Hz. unfold Vector3.zero in Hx, Hy, Hz. simpl in *.
    rewrite Rminus_0_r in Hx, Hy, Hz. repeat split; assumption.
Qed.

End Bounds.

Lemma particles_start_in_box_witness :
  (forall k, 0 <= steadyRandom k < 1)
  /\ exists p,
       particles (execState (addParticle steadyRandom DUST None) emptyScene) = [p]
       /\ withinBox 25 (initialPos p).
Proof.
  assert (Hr : forall k, 0 <= steadyRandom k < 1)
    by (intros k; unfold steadyRandom; lra).
  split; [assumption |].
  destruct (particles_start_in_box steadyRandom Hr emptyScene) as [Hadd _].
  destruct (Hadd DUST None) as (p & Hp & Hbox & _).
  exists p. split; assumption.
Defined.

(** ** The rotation of the main group *)

Lemma Rabs_le_bounds (x a : R) : Rabs x <= a -> - a <= x <= a.
Proof.
  intros H. pose proof (Rle_abs x). pose proof (Rle_abs (- x)) as Hn.
  rewrite Rabs_Ropp in Hn. lra.
Qed.

Lemma animate_rotation (random : nat -> R) (time : R)
    (hand : option (list Landmark)) (w w' : World) :
  animate random time hand w = Some w' ->
  match hand with
  | Some lm =>
      exists palm,
        nth_error lm 9 = Some palm
        /\ rotationX w' = MathUtils.lerp (rotationX w) ((ly palm - 0.5) * 2) 0.1
        /\ rotationY w' = MathUtils.lerp (rotationY w) ((lx palm - 0.5) * 2) 0.1
  | None => rotationX w' = rotationX w /\ rotationY w' = rotationY w
  end.
Proof.
  unfold animate. intros H. destruct hand as [lm |].
  - destruct (nth_error lm 9) as [palm |]; simpl in H; [| discriminate].
    destruct (gestures (mode w) lm) as [calls |]; simpl in H; [| discriminate].
    destruct (selectFocus random (mode w) (focusTarget w) (scene w))
      as [[target s] |]; simpl in H; [| discriminate].
    injection H as <-. exists palm. repeat split.
  - simpl in H.
    destruct (selectFocus random (mode w) (focusTarget w) (scene w))
      as [[target s] |]; simpl in H; [| discriminate].
    injection H as <-. split; reflexivity.
Qed.

(** X16.  The palm steers the main group: a frame with a hand leaves 0.9 of
    the difference between each rotation and its target, [(y - 0.5) * 2]
    for the rotation about x and [(x - 0.5) * 2] for the rotation about
    y, and a frame without a hand leaves the rotation.  So while the palm
    is inside the image a group that is within one radian on both axes
    stays there. *)
Theorem rotation_follows_palm (random : nat -> R) :
  (forall time lm palm w w',
     nth_error lm 9 = Some palm ->
     animate random time (Some lm) w = Some w' ->
     rotationX w' - (ly palm - 0.5) * 2
     = 0.9 * (rotationX w - (ly palm - 0.5) * 2)
     /\ rotationY w' - (lx palm - 0.5) * 2
        = 0.9 * (rotationY w - (lx palm - 0.5) * 2))
  /\ (forall time w w',
        animate random time None w = Some w' ->
        rotationX w' = rotationX w /\ rotationY w' = rotationY w)
  /\ (forall frames w w',
        palmsInImage frames ->
        Rabs (rotationX w) <= 1 -> Rabs (rotationY w) <= 1 ->
        run random frames w = Some w' ->
        Rabs (rotationX w') <= 1 /\ Rabs (rotationY w') <= 1).
Proof.
  split; [| split].
  - intros time lm palm w w' Hpalm Hrun.
    destruct (animate_rotation _ _ _ _ _ Hrun) as (palm' & Hp & Hx & Hy).
    rewrite Hpalm in Hp. injection Hp as <-.
    rewrite Hx, Hy. unfold MathUtils.lerp. split; lra.
  - intros time w w' Hrun. apply (animate_rotation _ _ _ _ _ Hrun).
  - intros frames w w' Hpalms. revert w.
    induction Hpalms as [| [time hand] frames Hpalm _ IH]; intros w Hx Hy Hrun.
    + simpl in Hrun. injection Hrun as <-. split; assumption.
    + simpl in Hrun.
      destruct (animate random time hand w) as [w1 |] eqn:H1;
        simpl in Hrun; [| discriminate].
      pose proof (animate_rotation _ _ _ _ _ H1) as Hrot.
      apply (IH w1); try assumption.
      * destruct hand as [lm |].
        -- destruct Hrot as (palm & Hp & Hx1 & _).
           destruct (Hpalm lm palm eq_refl Hp) as [_ Hly].
           rewrite Hx1. unfold MathUtils.lerp.
           apply Rabs_le. apply Rabs_le_bounds in Hx. lra.
        -- destruct Hrot as [-> _]. assumption.
      * destruct hand as [lm |].
        -- destruct Hrot as (palm & Hp & _ & Hy1).
           destruct (Hpalm lm palm eq_refl Hp) as [Hlx _].
           rewrite Hy1. unfold MathUtils.lerp.
           apply Rabs_le. apply Rabs_le_bounds in Hy. lra.
        -- destruct Hrot as [_ ->]. assumption.
Qed.

Lemma rotation_follows_palm_witness :
  exists w',
    animate steadyRandom 16 (Some fistHand) treeWorld = Some w'
    /\ rotationY w' - (0.5 - 0.5) * 2 = 0.9 * (rotationY treeWorld - (0.5 - 0.5) * 2).
Proof.
  destruct (animate_total steadyRandom 16 (Some fistHand) treeWorld) as (w' & Hrun).
  { intros lm H. injection H as <-. simpl. lia. }
  { simpl. unfold steadyRandom. lra. }
  exists w'. split; [assumption |].
  destruct (rotation_follows_palm steadyRandom) as [Hstep _].
  apply (Hstep 16 fistHand (mkLandmark 0.5 0.5 0) treeWorld w' eq_refl Hrun).
Defined.

(** ** The edit service *)

Module editFacts.
Import geminiService.

Local Open Scope string_scope.

Lemma split_commaFree (s : string) : commaFree s -> split ","%char s = [s].
Proof.
  induction s as [| c s IH]; simpl; [reflexivity |].
  intros [Hc Hs]. rewrite (proj2 (Ascii.eqb_neq c ","%char) Hc).
  rewrite (IH Hs). reflexivity.
Qed.

Lemma split_header (h rest : string) :
  commaFree h ->
  split ","%char (h ++ String ","%char rest) = h :: split ","%char rest.
Proof.
  induction h as [| c h IH]; simpl; [reflexivity |].
  intros [Hc Hh]. rewrite (proj2 (Ascii.eqb_neq c ","%char) Hc).
  rewrite (IH Hh). reflexivity.
Qed.

Lemma split_second (h d : string) :
  commaFree h -> commaFree d ->
  (nth_error (split ","%char (h ++ String ","%char d)) 1 = Some d)
  /\ forall rest,
       nth_error (split ","%char (h ++ String ","%char (d ++ String ","%char rest))) 1
       = Some d.
Proof.
  intros Hh Hd. split.
  - rewrite split_header by assumption. rewrite split_commaFree by assumption.
    reflexivity.
  - intros rest. rewrite !split_header by assumption. reflexivity.
Qed.

Lemma header_commaFree : commaFree "data:image/png;base64".
Proof. simpl. repeat split; discriminate. Qed.

End editFacts.

(** X17.  [editImageWithGemini] sends the piece of the image text
    between the first comma and the second one (or the end) when that
    piece is not empty, and the whole text when there is no comma or when
    that piece is empty, whatever follows it.  So for a data URL made by
    [generateChristmasImage] from comma-free data that is not empty, the
    request carries that data again, with the prompt after it. *)
Theorem edit_strips_header (h d : string) :
  commaFree h -> commaFree d ->
  geminiService.cleanBase64 d = d
  /\ geminiService.cleanBase64 (h ++ "," ++ d)%string
     = match d with
       | EmptyString => (h ++ "," ++ d)%string
       | String _ _ => d
       end
  /\ (forall rest,
        geminiService.cleanBase64 (h ++ "," ++ d ++ "," ++ rest)%string
        = match d with
          | EmptyString => (h ++ "," ++ d ++ "," ++ rest)%string
          | String _ _ => d
          end)
  /\ (d <> EmptyString ->
      forall prompt,
        geminiService.editRequest ("data:image/png;base64," ++ d)%string prompt
        = geminiService.mkEditRequest "gemini-2.5-flash-image"
            [geminiService.mkPart None
               (Some (geminiService.mkBlob (Some "image/png"%string) (Some d)));
             geminiService.mkPart (Some prompt) None]).
Proof.
  intros Hh Hd.
  assert (Hsecond : forall g, commaFree g ->
            geminiService.cleanBase64 (g ++ "," ++ d)%string
            = match d with
              | EmptyString => (g ++ "," ++ d)%string
              | String _ _ => d
              end).
  { intros g Hg. unfold geminiService.cleanBase64.
    change (g ++ "," ++ d)%string with (g ++ String ","%char d)%string.
    rewrite (proj1 (editFacts.split_second g d Hg Hd)).
    destruct d; reflexivity. }
  split; [| split; [| split]].
  - unfold geminiService.cleanBase64.
    rewrite editFacts.split_commaFree by assumption. reflexivity.
  - apply Hsecond, Hh.
  - intros rest. unfold geminiService.cleanBase64.
    change (h ++ "," ++ d ++ "," ++ rest)%string
      with (h ++ String ","%char (d ++ String ","%char rest))%string.
    rewrite (proj2 (editFacts.split_second h d Hh Hd)).
    destruct d; reflexivity.
  - intros Hne prompt. unfold geminiService.editRequest.
    change ("data:image/png;base64," ++ d)%string
      with ("data:image/png;base64" ++ "," ++ d)%string.
    rewrite (Hsecond _ editFacts.header_commaFree).
    destruct d; [contradiction | reflexivity].
Qed.

Lemma edit_strips_header_witness :
  commaFree "data:image/png;base64" /\ commaFree "iVBOR"
  /\ geminiService.cleanBase64 "data:image/png;base64,iVBOR" = "iVBOR"%string
  /\ geminiService.cleanBase64 "a,,c" = "a,,c"%string.
Proof.
  assert (Hh : commaFree "data:image/png;base64") by apply editFacts.header_commaFree.
  assert (Hd : commaFree "iVBOR") by (simpl; repeat split; discriminate).
  split; [assumption |]. split; [assumption |]. split.
  - destruct (edit_strips_header "data:image/png;base64" "iVBOR" Hh Hd)
      as (_ & Hstrip & _).
    exact Hstrip.
  - assert (Ha : commaFree "a") by (simpl; repeat split; discriminate).
    destruct (edit_strips_header "a" EmptyString Ha I) as (_ & _ & Hrest & _).
    exact (Hrest "c"%string).
Defined.

(** X18.  When the service answers, [editImageWithGemini] throws exactly
    when no part of the first candidate carries inline data, with the
    error "No edited image returned.", which is logged; otherwise it
    gives the data URL of the first part that does, and logs nothing.
    When the call itself throws, that error is logged and thrown
    again. *)
Theorem edit_fails_iff_no_image
    (ai : geminiService.EditRequest
          -> geminiService.Error + geminiService.Response)
    (base64Image prompt : string) :
  let outcome := geminiService.editImageWithGemini ai base64Image prompt in
  (forall e,
     ai (geminiService.editRequest base64Image prompt) = inl e ->
     outcome = (geminiService.rejected e, [e]))
  /\ (forall response,
        ai (geminiService.editRequest base64Image prompt) = inr response ->
        let ps := geminiService.responseParts response in
        (Forall (fun q => ~ hasImage q) ps ->
           outcome
           = (geminiService.rejected
                (geminiService.mkError "No edited image returned."%string),
              [geminiService.mkError "No edited image returned."%string]))
        /\ (forall before part blob after,
              ps = before ++ part :: after ->
              Forall (fun q => ~ hasImage q) before ->
              geminiService.inlineData part = Some blob ->
              outcome
              = (geminiService.fulfilled
                   ("data:image/png;base64,"
                    ++ geminiService.interpolate (geminiService.data blob))%string,
                 []))).
Proof.
  cbv zeta. unfold geminiService.editImageWithGemini. split.
  - intros e He. rewrite He. reflexivity.
  - intros response Hr. rewrite Hr.
    assert (Hno : forall l, Forall (fun q => ~ hasImage q) l ->
                            Forall (fun q => geminiService.inlineData q = None) l).
    { intros l Hl. eapply Forall_impl; [| exact Hl].
      intros q Hq. unfold hasImage in Hq.
      destruct (geminiService.inlineData q); [| reflexivity].
      exfalso. apply Hq. discriminate. }
    split.
    + intros Hall.
      rewrite (proj2 (geminiFacts.firstImage_none _) (Hno _ Hall)). reflexivity.
    + intros before part blob after Hps Hbefore Hpart.
      assert (Hf : geminiService.firstImage (geminiService.responseParts response)
                   = Some ("data:image/png;base64,"
                           ++ geminiService.interpolate (geminiService.data blob))%string).
      { apply geminiFacts.firstImage_some.
        exists before, part, blob, after. repeat split; try assumption.
        apply Hno, Hbefore. }
      rewrite Hf. reflexivity.
Qed.

Lemma edit_fails_iff_no_image_witness :
  geminiService.editImageWithGemini imageEditAi "data:image/png;base64,AAAA" "add snow"
  = (geminiService.fulfilled "data:image/png;base64,iVBOR", [])
  /\ geminiService.editImageWithGemini failingEditAi "AAAA" "add snow"
     = (geminiService.rejected (geminiService.mkError "fetch failed"),
        [geminiService.mkError "fetch failed"]).
Proof.
  split.
  - destruct (edit_fails_iff_no_image imageEditAi "data:image/png;base64,AAAA"
                "add snow") as [_ Hanswer].
    destruct (Hanswer imageResponse eq_refl) as [_ Himage].
    apply (Himage [geminiService.mkPart (Some "A tree"%string) None]
                  (geminiService.mkPart None
                     (Some (geminiService.mkBlob (Some "image/png"%string)
                                                 (Some "iVBOR"%string))))
                  (geminiService.mkBlob (Some "image/png"%string) (Some "iVBOR"%string))
                  []).
    + reflexivity.
    + constructor; [| constructor]. unfold hasImage. simpl. intros H. apply H.
      reflexivity.
    + reflexivity.
  - destruct (edit_fails_iff_no_image failingEditAi "AAAA" "add snow") as [Hthrow _].
    apply Hthrow. reflexivity.
Defined.

(** ** The control panel and the photo queue *)

Lemma generate_url (ai : geminiService.Request
                         -> geminiService.Error + geminiService.Response)
    (prompt : string) (size : geminiService.ImageSize) (url : string) :
  fst (geminiService.generateChristmasImage ai prompt size)
  = geminiService.fulfilled url ->
  exists d, url = ("data:image/png;base64," ++ d)%string.
Proof.
  unfold geminiService.generateChristmasImage.
  destruct (ai (geminiService.imageRequest prompt size)) as [e | response];
    simpl; [discriminate |].
  destruct (geminiService.firstImage (geminiService.responseParts response))
    as [u |] eqn:Hf; simpl; [| discriminate].
  intros H. injection H as <-.
  apply geminiFacts.firstImage_some in Hf.
  destruct Hf as (before & part & blob & after & _ & _ & _ & ->).
  eexists. reflexivity.
Qed.

(** X19.  [handleGenerate] does nothing without a prompt.  With one, it ends
    with the busy flag down whatever the service did.  On success the
    image is queued for the scene, the prompt is emptied, the tools are
    closed and no error is shown; on any failure the only message is
    "Failed to generate image.", the prompt and the tools stay for
    another try, and the queue is not touched.  It never changes the mode
    or the cells of the edit. *)
Theorem handleGenerate_outcomes
    (ai : geminiService.Request -> geminiService.Error + geminiService.Response)
    (ui : UI.State) (app : AppState) :
  (UI.genPrompt ui = EmptyString -> UI.handleGenerate ai ui app = (ui, app, []))
  /\ (UI.genPrompt ui <> EmptyString ->
      exists pending ui' app' log,
        UI.startGenerate ui = Some pending
        /\ UI.isGenerating pending = true /\ UI.genError pending = None
        /\ UI.handleGenerate ai ui app = (ui', app', log)
        /\ UI.isGenerating ui' = false
        /\ app_mode app' = app_mode app
        /\ (UI.isHidden ui', UI.genSize ui', UI.isEditing ui', UI.editPrompt ui',
            UI.selectedFileForEdit ui', UI.previewUrl ui')
           = (UI.isHidden ui, UI.genSize ui, UI.isEditing ui, UI.editPrompt ui,
              UI.selectedFileForEdit ui, UI.previewUrl ui)
        /\ match fst (geminiService.generateChristmasImage
                        ai (UI.genPrompt ui) (UI.genSize ui)) with
           | geminiService.fulfilled url =>
               newPhoto app' = Some url
               /\ UI.genPrompt ui' = EmptyString
               /\ UI.showGenTools ui' = false
               /\ UI.genError ui' = None
           | geminiService.rejected _ =>
               app' = app
               /\ UI.genError ui' = Some "Failed to generate image."%string
               /\ UI.genPrompt ui' = UI.genPrompt ui
               /\ UI.showGenTools ui' = UI.showGenTools ui
           end).
Proof.
  split.
  - intros H. unfold UI.handleGenerate, UI.startGenerate. rewrite H. reflexivity.
  - intros H. unfold UI.handleGenerate, UI.startGenerate.
    destruct (UI.genPrompt ui) as [| c prompt] eqn:Hp; [contradiction |].
    destruct (geminiService.generateChristmasImage ai (String c prompt)
                (UI.genSize ui)) as [[url | e] log];
      simpl; do 4 eexists; repeat split.
Qed.

Lemma handleGenerate_outcomes_witness :
  UI.genPrompt promptedPanel <> EmptyString
  /\ exists ui' app' log,
       UI.handleGenerate imageAi promptedPanel initialApp = (ui', app', log)
       /\ UI.isGenerating ui' = false.
Proof.
  assert (H : UI.genPrompt promptedPanel <> EmptyString) by (simpl; discriminate).
  split; [assumption |].
  destruct (handleGenerate_outcomes imageAi promptedPanel initialApp) as [_ Hrun].
  destruct (Hrun H) as (pending & ui' & app' & log & _ & _ & _ & Hgo & Hflag & _).
  exists ui', app', log. split; assumption.
Defined.

(** X20.  [handleEdit] does nothing without a prompt or without a preview.
    With both, it ends with the busy flag down whatever the service did.
    On success the image is queued for the scene, the prompt, the chosen
    file and the preview are cleared and the tools are closed; on any
    failure the only message is "Failed to edit image.", and the prompt,
    the file, the preview and the queue are as they were. *)
Theorem handleEdit_outcomes
    (ai : geminiService.EditRequest
          -> geminiService.Error + geminiService.Response)
    (ui : UI.State) (app : AppState) :
  (UI.editPrompt ui = EmptyString \/ UI.previewUrl ui = None
   \/ UI.previewUrl ui = Some EmptyString ->
   UI.handleEdit ai ui app = (ui, app, []))
  /\ (forall preview,
        UI.editPrompt ui <> EmptyString ->
        UI.previewUrl ui = Some preview -> preview <> EmptyString ->
        exists pending ui' app' log,
          UI.startEdit ui = Some (preview, pending)
          /\ UI.isEditing pending = true /\ UI.genError pending = None
          /\ UI.handleEdit ai ui app = (ui', app', log)
          /\ UI.isEditing ui' = false
          /\ app_mode app' = app_mode app
          /\ (UI.isHidden ui', UI.genSize ui', UI.isGenerating ui', UI.genPrompt ui')
             = (UI.isHidden ui, UI.genSize ui, UI.isGenerating ui, UI.genPrompt ui)
          /\ match fst (geminiService.editImageWithGemini
                          ai preview (UI.editPrompt ui)) with
             | geminiService.fulfilled url =>
                 newPhoto app' = Some url
                 /\ UI.editPrompt ui' = EmptyString
                 /\ UI.selectedFileForEdit ui' = None
                 /\ UI.previewUrl ui' = None
                 /\ UI.showGenTools ui' = false
                 /\ UI.genError ui' = None
             | geminiService.rejected _ =>
                 app' = app
                 /\ UI.genError ui' = Some "Failed to edit image."%string
                 /\ UI.editPrompt ui' = UI.editPrompt ui
                 /\ UI.selectedFileForEdit ui' = UI.selectedFileForEdit ui
                 /\ UI.previewUrl ui' = UI.previewUrl ui
                 /\ UI.showGenTools ui' = UI.showGenTools ui
             end).
Proof.
  split.
  - unfold UI.handleEdit, UI.startEdit.
    intros [H | [H | H]]; rewrite H; try reflexivity;
      destruct (UI.editPrompt ui); reflexivity.
  - intros preview Hprompt Hpreview Hne.
    unfold UI.handleEdit, UI.startEdit. rewrite Hpreview.
    destruct (UI.editPrompt ui) as [| c prompt] eqn:Hp; [contradiction |].
    destruct preview as [| c' preview]; [contradiction |].
    destruct (geminiService.editImageWithGemini ai (String c' preview)
                (String c prompt)) as [[url | e] log];
      simpl; do 4 eexists; repeat split.
Qed.

Lemma handleEdit_outcomes_witness :
  exists ui' app' log,
    UI.handleEdit failingEditAi editPanel initialApp = (ui', app', log)
    /\ UI.isEditing ui' = false.
Proof.
  destruct (handleEdit_outcomes failingEditAi editPanel initialApp) as [_ Hrun].
  destruct (Hrun "data:image/png;base64,iVBOR"%string)
    as (pending & ui' & app' & log & _ & _ & _ & Hgo & Hflag & _).
  - simpl. discriminate.
  - reflexivity.
  - discriminate.
  - exists ui', app', log. split; assumption.
Defined.

Lemma lowerAscii_h (c : ascii) :
  UI.lowerAscii c = "h"%char <-> c = "h"%char \/ c = "H"%char.
Proof.
  split.
  - destruct c as [[] [] [] [] [] [] [] []]; vm_compute; intros H;
      try discriminate; auto.
  - intros [-> | ->]; reflexivity.
Qed.

Lemma toLowerCase_h (key : string) :
  String.eqb (UI.toLowerCase key) "h" = true
  <-> key = "h"%string \/ key = "H"%string.
Proof.
  rewrite String.eqb_eq. split.
  - destruct key as [| c [| c' rest]]; simpl; intros H; try discriminate.
    injection H as H. apply lowerAscii_h in H. destruct H as [-> | ->]; auto.
  - intros [-> | ->]; reflexivity.
Qed.

(** X21.  The key h, small or capital, shows the hidden panel and hides
    the shown one, and leaves every other cell of the panel as it is;
    pressing it twice gives the panel back as it was; every other key
    does nothing. *)
Theorem handleKey_toggles (key : string) (ui : UI.State) :
  (key = "h"%string \/ key = "H"%string ->
     UI.handleKey key ui
     = UI.mkState (negb (UI.isHidden ui)) (UI.showGenTools ui) (UI.genPrompt ui)
         (UI.genSize ui) (UI.isGenerating ui) (UI.genError ui) (UI.isEditing ui)
         (UI.editPrompt ui) (UI.selectedFileForEdit ui) (UI.previewUrl ui))
  /\ (key <> "h"%string -> key <> "H"%string -> UI.handleKey key ui = ui)
  /\ UI.handleKey key (UI.handleKey key ui) = ui
  /\ (UI.showGenTools (UI.handleKey key ui), UI.genPrompt (UI.handleKey key ui),
      UI.genSize (UI.handleKey key ui), UI.isGenerating (UI.handleKey key ui),
      UI.genError (UI.handleKey key ui), UI.isEditing (UI.handleKey key ui),
      UI.editPrompt (UI.handleKey key ui),
      UI.selectedFileForEdit (UI.handleKey key ui),
      UI.previewUrl (UI.handleKey key ui))
     = (UI.showGenTools ui, UI.genPrompt ui, UI.genSize ui, UI.isGenerating ui,
        UI.genError ui, UI.isEditing ui, UI.editPrompt ui,
        UI.selectedFileForEdit ui, UI.previewUrl ui).
Proof.
  unfold UI.handleKey.
  destruct (String.eqb (UI.toLowerCase key) "h") eqn:Hk.
  - split; [intros _; reflexivity |]. split; [| split].
    + intros H1 H2. apply toLowerCase_h in Hk. tauto.
    + destruct ui. simpl. rewrite negb_involutive. reflexivity.
    + reflexivity.
  - split; [| split; [| split]]; try reflexivity.
    intros H. apply toLowerCase_h in H. congruence.
Qed.

Lemma handleKey_toggles_witness :
  UI.handleKey "H" UI.initialState
  = UI.mkState true false EmptyString geminiService.size1K false None
               false EmptyString None None.
Proof.
  apply (handleKey_toggles "H" UI.initialState). right. reflexivity.
Defined.

Section PhotoQueue.

Variable random : nat -> R.
Variable loads : string -> bool.

Lemma newPhotoEffect_url (c : ascii) (rest : string) (app : AppState) (s : Scene) :
  newPhoto app = Some (String c rest) ->
  loads (String c rest) = true ->
  exists p,
    newPhotoEffect random loads app s
    = (clearNewPhoto app, execState (onTextureLoaded random (String c rest)) s)
    /\ particles (execState (onTextureLoaded random (String c rest)) s)
       = particles s ++ [p]
    /\ type p = PHOTO
    /\ material (mesh p) = matPhoto (String c rest)
    /\ initialPos p = Vector3.zero.
Proof.
  intros H Hload. unfold newPhotoEffect. rewrite H. simpl handleNewPhoto.
  rewrite Hload.
  destruct (onTextureLoaded_mesh random (String c rest) s)
    as (p & Hp & _ & _ & Hmat).
  destruct (onTextureLoaded_push random (String c rest) s)
    as (q & Hq & Hty & Hpos & _).
  rewrite Hp in Hq. apply app_inj_tail in Hq. destruct Hq as [_ <-].
  exists p. repeat split; assumption.
Qed.

(** A URL that does not load: nothing is pushed and the queue stays. *)
Lemma newPhotoEffect_fails (url : string) (app : AppState) (s : Scene) :
  newPhoto app = Some url -> loads url = false ->
  newPhotoEffect random loads app s = (app, s).
Proof.
  intros H Hload. unfold newPhotoEffect. rewrite H.
  destruct url as [| c rest]; [reflexivity |].
  simpl handleNewPhoto. rewrite Hload. reflexivity.
Qed.

(** X22.  The second effect adds a queued photo once: for a queued URL
    that is not empty and whose texture loads it pushes one PHOTO
    particle with that texture, anchored at the origin, and empties the
    queue, so that running it again adds nothing; with an empty queue,
    with the empty string queued, or with a URL that does not load, it
    leaves the store and the queue as they are. *)
Theorem new_photo_added_once (app : AppState) (s : Scene) :
  let app' := fst (newPhotoEffect random loads app s) in
  let s' := snd (newPhotoEffect random loads app s) in
  newPhotoEffect random loads app' s' = (app', s')
  /\ app_mode app' = app_mode app
  /\ (newPhoto app = None \/ newPhoto app = Some EmptyString ->
      app' = app /\ s' = s)
  /\ (forall url,
        newPhoto app = Some url -> url <> EmptyString -> loads url = true ->
        newPhoto app' = None
        /\ exists p,
             particles s' = particles s ++ [p]
             /\ type p = PHOTO
             /\ material (mesh p) = matPhoto url
             /\ initialPos p = Vector3.zero)
  /\ (forall url,
        newPhoto app = Some url -> loads url = false ->
        app' = app /\ s' = s).
Proof.
  cbv zeta.
  destruct (newPhoto app) as [[| c rest] |] eqn:Hq.
  - unfold newPhotoEffect. rewrite Hq. simpl. rewrite Hq.
    split; [reflexivity |]. split; [reflexivity |].
    split; [intros _; split; reflexivity |].
    split; [| intros url _ _; split; reflexivity].
    intros url H Hne. injection H as <-. contradiction.
  - destruct (loads (String c rest)) eqn:Hload.
    + destruct (newPhotoEffect_url c rest app s Hq Hload)
        as (p & -> & Hp & Hty & Hmat & Hpos).
      simpl.
      split; [reflexivity |]. split; [reflexivity |].
      split; [intros [H | H]; discriminate |].
      split.
      * intros url H Hne _. injection H as <-.
        split; [reflexivity |].
        exists p. repeat split; assumption.
      * intros url H Hfail. injection H as <-. congruence.
    + rewrite (newPhotoEffect_fails (String c rest) app s Hq Hload). simpl.
      rewrite (newPhotoEffect_fails (String c rest) app s Hq Hload).
      split; [reflexivity |]. split; [reflexivity |].
      split; [intros [H | H]; discriminate |].
      split; [| intros url _ _; split; reflexivity].
      intros url H _ Hok. injection H as <-. congruence.
  - unfold newPhotoEffect. rewrite Hq. simpl. rewrite Hq.
    split; [reflexivity |]. split; [reflexivity |].
    split; [intros _; split; reflexivity |].
    split; intros url H; discriminate.
Qed.

(** X23.  A generated image reaches the scene when its texture loads:
    when [handleGenerate] runs with a prompt and the service gives an
    image, the URL it queues is never empty; if the texture of that URL
    loads, the second effect pushes a PHOTO particle textured with it and
    empties the queue, and if it does not load, nothing is pushed and the
    URL stays queued. *)
Theorem generated_photo_reaches_scene
    (ai : geminiService.Request -> geminiService.Error + geminiService.Response)
    (ui : UI.State) (app : AppState) (s : Scene) (url : string) :
  UI.genPrompt ui <> EmptyString ->
  fst (geminiService.generateChristmasImage ai (UI.genPrompt ui) (UI.genSize ui))
  = geminiService.fulfilled url ->
  exists ui' app' log,
    UI.handleGenerate ai ui app = (ui', app', log)
    /\ newPhoto app' = Some url
    /\ url <> EmptyString
    /\ (loads url = true ->
        exists p,
          newPhoto (fst (newPhotoEffect random loads app' s)) = None
          /\ particles (snd (newPhotoEffect random loads app' s))
             = particles s ++ [p]
          /\ type p = PHOTO
          /\ material (mesh p) = matPhoto url)
    /\ (loads url = false ->
        newPhotoEffect random loads app' s = (app', s)).
Proof.
  intros Hprompt Hgen.
  assert (Hrun : exists ui' log,
             UI.handleGenerate ai ui app
             = (ui', handlePhotoGenerated url app, log)).
  { unfold UI.handleGenerate, UI.startGenerate.
    destruct (UI.genPrompt ui) as [| c prompt] eqn:Hp; [contradiction |].
    destruct (geminiService.generateChristmasImage ai (String c prompt)
                (UI.genSize ui)) as [settled log].
    simpl in Hgen. subst settled. do 2 eexists. reflexivity. }
  destruct Hrun as (ui' & log & Hrun).
  assert (Hne : url <> EmptyString).
  { destruct (generate_url _ _ _ _ Hgen) as (d & ->). discriminate. }
  exists ui', (handlePhotoGenerated url app), log.
  split; [assumption |]. split; [reflexivity |]. split; [assumption |].
  split.
  - intros Hload. destruct url as [| c rest]; [contradiction |].
    destruct (newPhotoEffect_url c rest
                (handlePhotoGenerated (String c rest) app) s eq_refl Hload)
      as (p & Heff & Hps & Hty & Hmat & _).
    exists p. rewrite Heff. simpl.
    split; [reflexivity |]. split; [assumption |]. split; assumption.
  - intros Hfail. apply (newPhotoEffect_fails url); [reflexivity | assumption].
Qed.


End PhotoQueue.

Lemma new_photo_added_once_witness :
  newPhoto (handlePhotoGenerated "data:image/png;base64,iVBOR" initialApp)
  = Some "data:image/png;base64,iVBOR"%string
  /\ sampleLoads "data:image/png;base64,iVBOR" = true
  /\ newPhoto (fst (newPhotoEffect steadyRandom sampleLoads
                      (handlePhotoGenerated "data:image/png;base64,iVBOR" initialApp)
                      emptyScene)) = None.
Proof.
  split; [reflexivity |]. split; [reflexivity |].
  pose proof (new_photo_added_once steadyRandom sampleLoads
                (handlePhotoGenerated "data:image/png;base64,iVBOR" initialApp)
                emptyScene) as Honce.
  cbv zeta in Honce. destruct Honce as (_ & _ & _ & Hurl & _).
  apply (Hurl "data:image/png;base64,iVBOR"%string).
  - reflexivity.
  - discriminate.
  - reflexivity.
Defined.

Lemma generated_photo_reaches_scene_witness :
  exists ui' app' log p,
    UI.handleGenerate imageAi promptedPanel initialApp = (ui', app', log)
    /\ newPhoto app' = Some "data:image/png;base64,iVBOR"%string
    /\ particles (snd (newPhotoEffect steadyRandom sampleLoads app' emptyScene)) = [p]
    /\ type p = PHOTO.
Proof.
  destruct (generated_photo_reaches_scene steadyRandom sampleLoads imageAi
              promptedPanel initialApp emptyScene
              "data:image/png;base64,iVBOR"%string)
    as (ui' & app' & log & Hrun & Hq & _ & Hload & _).
  - simpl. discriminate.
  - reflexivity.
  - destruct (Hload eq_refl) as (p & _ & Hps & Hty & _).
    exists ui', app', log, p. repeat split; assumption.
Defined.


(** ** The focus target over the frames *)

(** C8, as the code has it.  A frame that ends leaves a focus target
    only if it was processed in FOCUS, the mode read at its start: a
    frame processed in another mode ends with the target cleared, and a
    frame processed in FOCUS keeps a target that was selected.  With no
    hand or with a hand of at least 21 landmarks, and a draw of
    [Math.random] in [0, 1), the frame does end; processed in FOCUS with
    no target selected, it picks the mesh of one PHOTO particle of the
    store when there is one, and when there is none it ends with no
    target, still in FOCUS if no hand is in view.  The mode the frame
    sets is not looked at: a frame processed in FOCUS that switches the
    mode ends with its target set, and the frame after it clears it. *)
Theorem focus_target_only_in_focus (random : nat -> R) (time : R)
    (hand : option (list Landmark)) (w : World) :
  (forall w',
     animate random time hand w = Some w' ->
     (mode w <> FOCUS -> focusTarget w' = None)
     /\ (focusTarget w' <> None -> mode w = FOCUS)
     /\ (forall id,
           mode w = FOCUS -> focusTarget w = Some id ->
           focusTarget w' = Some id)
     /\ (forall time' hand' w'',
           mode w' <> FOCUS ->
           animate random time' hand' w' = Some w'' ->
           focusTarget w'' = None))
  /\ ((forall lm, hand = Some lm -> (21 <= List.length lm)%nat) ->
      0 <= random (draws (scene w)) < 1 ->
      exists w',
        animate random time hand w = Some w'
        /\ (mode w = FOCUS -> focusTarget w = None ->
            filter isPhoto (particles (scene w)) <> [] ->
            exists p,
              In p (particles (scene w)) /\ type p = PHOTO
              /\ focusTarget w' = Some (mesh_id (mesh p)))
        /\ (mode w = FOCUS -> focusTarget w = None ->
            filter isPhoto (particles (scene w)) = [] ->
            focusTarget w' = None /\ (hand = None -> mode w' = FOCUS))).
Proof.
  assert (Hclear : forall t h v v',
             animate random t h v = Some v' ->
             mode v <> FOCUS -> focusTarget v' = None).
  { intros t h v v' H Hm.
    destruct (animate_focusTarget random _ _ _ _ H) as (s & Hs).
    rewrite (selectFocus_not_focus random _ _ _ Hm) in Hs. congruence. }
  split.
  - intros w' Hrun. split; [| split; [| split]].
    + apply (Hclear _ _ _ _ Hrun).
    + intros Hsome. destruct (mode w) eqn:Hm; try reflexivity;
        exfalso; apply Hsome, (Hclear _ _ _ _ Hrun); rewrite Hm; discriminate.
    + intros id Hm Ht.
      destruct (animate_focusTarget random _ _ _ _ Hrun) as (s & Hs).
      rewrite Hm, Ht, selectFocus_keeps in Hs. congruence.
    + intros time' hand' w'' Hm Hnext. apply (Hclear _ _ _ _ Hnext Hm).
  - intros Hhand Hr.
    destruct (animate_total random time hand w Hhand Hr) as (w' & Hrun).
    exists w'. split; [assumption |].
    destruct (animate_focusTarget random _ _ _ _ Hrun) as (s & Hs).
    split.
    + intros Hm Ht Hphotos.
      destruct (selectFocus_picks_photo random (scene w) Hphotos Hr)
        as (p & Hin & Hty & Hsel).
      rewrite Hm, Ht, Hsel in Hs.
      exists p. split; [assumption |]. split; [assumption |]. congruence.
    + intros Hm Ht Hphotos.
      rewrite Hm, Ht, (selectFocus_no_photo random (scene w) Hphotos) in Hs.
      split; [congruence |].
      intros ->. rewrite (animate_no_hand_mode _ _ _ _ Hrun). assumption.
Qed.

Lemma focus_target_only_in_focus_witness :
  exists w',
    animate steadyRandom 16 (Some pinchedFist) photoWorld = Some w'
    /\ focusTarget w' = Some 0%nat.
Proof.
  destruct (focus_target_only_in_focus steadyRandom 16 (Some pinchedFist) photoWorld)
    as [_ Hpick].
  destruct Hpick as (w' & Hrun & Hphoto & _).
  - intros lm H. injection H as <-. simpl. lia.
  - simpl. unfold steadyRandom. lra.
  - exists w'. split; [assumption |].
    destruct Hphoto as (p & Hin & _ & Htarget).
    + reflexivity.
    + reflexivity.
    + simpl. discriminate.
    + simpl in Hin. destruct Hin as [<- | []]. assumption.
Defined.

(** C8, as stated, fails: the frame processed in FOCUS on the scene
    with one photo, with a closed hand that is not pinched in view,
    selects the photo and calls [setMode(TREE)], so that it ends with the
    mode TREE and a focus target that is not null. *)
Lemma focus_target_outlives_focus :
  exists w',
    animate steadyRandom 16 (Some fistHand) photoWorld = Some w'
    /\ mode w' = TREE
    /\ focusTarget w' = Some 0%nat
    /\ mode w' <> FOCUS
    /\ focusTarget w' <> None.
Proof.
  assert (Hg : gestures FOCUS fistHand = Some [TREE]).
  { rewrite (gestures_classify FOCUS fistHand (0.6 - 0.3) (0.7 - 0.5)).
    - unfold classify.
      rewrite (proj2 (ltb_nlt _ _)) by lra. rewrite (proj2 (ltb_lt _ _)) by lra.
      reflexivity.
    - apply pinchDistance_upright; lra.
    - apply avgDist_upright; lra. }
  destruct (selectFocus_picks_photo steadyRandom (scene photoWorld))
    as (p & Hin & _ & Hsel).
  { simpl. discriminate. }
  { simpl. unfold steadyRandom. lra. }
  simpl in Hin. destruct Hin as [<- | []].
  destruct (animate_hand steadyRandom 16 fistHand photoWorld
              (mkLandmark 0.5 0.5 0) [TREE] _ _ eq_refl Hg Hsel)
    as (w' & Hrun & Hmode & Htarget).
  exists w'. split; [assumption |].
  assert (Hm : mode w' = TREE) by (rewrite Hmode; reflexivity).
  assert (Ht : focusTarget w' = Some 0%nat) by (rewrite Htarget; reflexivity).
  split; [assumption |]. split; [assumption |]. split.
  - rewrite Hm. discriminate.
  - rewrite Ht. discriminate.
Qed.
